(** * Entry size analysis for a rich-text field: [index.js] in Rocq

    The script fetches one entry and the locales of a space, measures the
    designated field per locale ([getByteSize], [getCharacterCount],
    [analyzeContentOverhead]), and prints totals, the share of the 2MB
    limit and a per-field breakdown.  This file gives the data the script
    works on (JavaScript strings, JSON values) and the functions of
    [index.js] as Rocq definitions, and proves properties of them.  The
    limits of the host on the depth of the calls and on the length of a
    string are not described: the data is taken within them. *)

From Stdlib Require Import List ZArith NArith QArith Lia Bool String Ascii.
From Stdlib Require Import DecimalString Permutation Sorted ZifyBool Qpower.
Import ListNotations.
Local Open Scope Z_scope.
Local Set Warnings "-register-all".

(** ** JavaScript strings

    A JavaScript string is a sequence of UTF-16 code units; [.length]
    counts them. *)

Definition jsstring := list N.

(** An ASCII literal as a JavaScript string. *)
Definition js (s : string) : jsstring :=
  map N_of_ascii (list_ascii_of_string s).

Fixpoint jsstring_eqb (a b : jsstring) : bool :=
  match a, b with
  | [], [] => true
  | x :: a', y :: b' => N.eqb x y && jsstring_eqb a' b'
  | _, _ => false
  end.

(** [s.length] *)
Definition str_length (s : jsstring) : Z := Z.of_nat (List.length s).

Definition is_high (u : N) : bool := (N.leb 0xD800 u && N.leb u 0xDBFF)%N.
Definition is_low (u : N) : bool := (N.leb 0xDC00 u && N.leb u 0xDFFF)%N.

(** Letters and digits of Basic Latin. *)
Definition is_upper (u : N) : bool := (N.leb 65 u && N.leb u 90)%N.
Definition is_lower (u : N) : bool := (N.leb 97 u && N.leb u 122)%N.
Definition is_digit (u : N) : bool := (N.leb 48 u && N.leb u 57)%N.

(** The code point a pair of surrogates stands for. *)
Definition surrogate_pair (h l : N) : N :=
  (0x10000 + (h - 0xD800) * 0x400 + (l - 0xDC00))%N.

(** The code points a string encodes.  A surrogate that is not part of a
    pair is replaced by U+FFFD, as [Buffer] does when it encodes. *)
Fixpoint code_points (s : jsstring) : list N :=
  match s with
  | [] => []
  | u :: rest =>
      if is_high u then
        match rest with
        | l :: rest' =>
            if is_low l
            then surrogate_pair u l :: code_points rest'
            else 0xFFFD%N :: code_points rest
        | [] => [0xFFFD%N]
        end
      else if is_low u then 0xFFFD%N :: code_points rest
      else u :: code_points rest
  end.

(** The UTF-8 bytes of one code point. *)
Definition utf8_bytes (c : N) : list N :=
  (if c <? 0x80 then [c]
   else if c <? 0x800 then [0xC0 + c / 0x40; 0x80 + c mod 0x40]
   else if c <? 0x10000 then
     [0xE0 + c / 0x1000; 0x80 + (c / 0x40) mod 0x40; 0x80 + c mod 0x40]
   else
     [0xF0 + c / 0x40000; 0x80 + (c / 0x1000) mod 0x40;
      0x80 + (c / 0x40) mod 0x40; 0x80 + c mod 0x40])%N.

Definition utf8_encode (s : jsstring) : list N :=
  flat_map utf8_bytes (code_points s).

(** [Buffer.byteLength(s, "utf8")] *)
Definition byteLength (s : jsstring) : Z :=
  Z.of_nat (List.length (utf8_encode s)).

(** ** JSON values

    Field values, rich-text nodes and the entry are the JSON data the API
    returns.  An object keeps its properties in enumeration order
    ([JSON.stringify] and [Object.keys] follow it).  Numbers are taken at
    the integers. *)

Inductive value : Type :=
| Undefined
| Null
| Bool (b : bool)
| Num (n : Z)
| Str (s : jsstring)
| Arr (elems : list value)
| Obj (props : list (jsstring * value)).

(** Exceptions: the only one the modelled code can raise is a [TypeError]
    (a property read on [null] or [undefined], [Object.keys] of them,
    the conversion to a string of an object that has a [toString] of its
    own, [Buffer.byteLength] of a non-string). *)
Inductive error : Type := TypeError.

(** How an evaluation ends: with a result, with an exception, or on a
    read [o[k]] that the value [o] does not answer itself and that a
    prototype of the host may answer ([Inherited k]).  What the host's
    prototypes hold is not JSON data: a function such as
    [Object.prototype.toString], or a prototype object.  The evaluation
    is followed up to such a read and no further. *)
Inductive exn (A : Type) : Type :=
| Ok (a : A)
| Throw (e : error)
| Inherited (k : jsstring).
Arguments Ok {A} a.
Arguments Throw {A} e.
Arguments Inherited {A} k.

Definition bind {A B : Type} (m : exn A) (f : A -> exn B) : exn B :=
  match m with
  | Ok a => f a
  | Throw e => Throw e
  | Inherited k => Inherited k
  end.

Notation "x <- m ;; k" := (bind m (fun x => k))
  (at level 61, m at next level, right associativity).

(** [!!v] *)
Definition truthy (v : value) : bool :=
  match v with
  | Undefined | Null => false
  | Bool b => b
  | Num n => negb (n =? 0)
  | Str s => match s with [] => false | _ => true end
  | Arr _ | Obj _ => true
  end.

(** [typeof v] *)
Definition typeof (v : value) : string :=
  match v with
  | Undefined => "undefined"
  | Null => "object"
  | Bool _ => "boolean"
  | Num _ => "number"
  | Str _ => "string"
  | Arr _ | Obj _ => "object"
  end.

(** [Array.isArray(v)] *)
Definition isArray (v : value) : bool :=
  match v with Arr _ => true | _ => false end.

Fixpoint lookup (k : jsstring) (props : list (jsstring * value)) : option value :=
  match props with
  | [] => None
  | (k', v) :: tl => if jsstring_eqb k k' then Some v else lookup k tl
  end.

Definition digit_of (u : N) : option N :=
  if (N.leb 48 u && N.leb u 57)%N then Some (u - 48)%N else None.

Fixpoint parse_digits (acc : N) (s : jsstring) : option N :=
  match s with
  | [] => Some acc
  | u :: r =>
      match digit_of u with
      | Some d => parse_digits (acc * 10 + d)%N r
      | None => None
      end
  end.

(** A property key that is a canonical index: decimal digits without a
    leading zero. *)
Definition array_index (k : jsstring) : option N :=
  match k with
  | [] => None
  | [48%N] => Some 0%N
  | 48%N :: _ => None
  | _ => parse_digits 0%N k
  end.

(** The names of the members of [Object.prototype].  An object of the
    JSON data has [Object.prototype] as its prototype: a read of one of
    these names that the object does not define itself is answered by the
    prototype, with a function (or, for [__proto__], with the prototype
    itself). *)
Definition objectPrototypeNames : list jsstring :=
  map js ["constructor"; "__defineGetter__"; "__defineSetter__";
          "hasOwnProperty"; "__lookupGetter__"; "__lookupSetter__";
          "isPrototypeOf"; "propertyIsEnumerable"; "toString"; "valueOf";
          "__proto__"; "toLocaleString"]%string.

(** A key spelled as an identifier: a letter, [_] or [$], then letters,
    digits, [_] and [$].  The members of the built-in prototypes all have
    such names. *)
Definition identifierName (k : jsstring) : bool :=
  match k with
  | [] => false
  | u :: rest =>
      (is_upper u || is_lower u || N.eqb u 95 || N.eqb u 36) &&
      forallb (fun u => is_upper u || is_lower u || is_digit u
                        || N.eqb u 95 || N.eqb u 36) rest
  end.

(** [inherits o k]: a read of [k] that [o] does not answer itself may be
    answered by its prototype chain.  For an object this is exact: the
    chain is [Object.prototype].  An array, a string, a number or a
    boolean has the prototype of its kind before [Object.prototype],
    whose members differ with the edition of the language: every
    identifier may name one, except [value], [content] and [fields], the
    names the script reads, which no built-in prototype defines. *)
Definition inherits (o : value) (k : jsstring) : bool :=
  match o with
  | Obj _ => existsb (jsstring_eqb k) objectPrototypeNames
  | _ =>
      identifierName k &&
      negb (existsb (jsstring_eqb k) [js "value"; js "content"; js "fields"])
  end.

(** [o[k]]: the properties of an object, the elements and [length] of an
    array or a string; a key that names none of them is [undefined] when
    the prototype chain cannot answer it.  Reading a property of [null]
    or [undefined] throws. *)
Definition get (o : value) (k : jsstring) : exn value :=
  let absent := if inherits o k then Inherited k else Ok Undefined in
  match o with
  | Undefined | Null => Throw TypeError
  | Obj props =>
      match lookup k props with
      | Some v => Ok v
      | None => absent
      end
  | Arr elems =>
      if jsstring_eqb k (js "length") then Ok (Num (Z.of_nat (List.length elems)))
      else match array_index k with
           | Some i => Ok (nth (N.to_nat i) elems Undefined)
           | None => absent
           end
  | Str s =>
      if jsstring_eqb k (js "length") then Ok (Num (str_length s))
      else match array_index k with
           | Some i =>
               Ok (match nth_error s (N.to_nat i) with
                   | Some u => Str [u]
                   | None => Undefined
                   end)
           | None => absent
           end
  | Bool _ | Num _ => absent
  end.

(** Decimal rendering of an integer-valued number, written in full (as
    the language does below 10^21). *)
Definition number_to_string (n : Z) : jsstring :=
  js (NilZero.string_of_int (Z.to_int n)).

Fixpoint join (sep : jsstring) (parts : list jsstring) : jsstring :=
  match parts with
  | [] => []
  | [p] => p
  | p :: tl => p ++ sep ++ join sep tl
  end.

(** The conversion to a string that [plainText += v] applies to [v].  An
    array is joined with commas, [null] and [undefined] elements giving
    the empty string.  An object is converted by its [toString] method:
    the one of [Object.prototype] gives ["[object Object]"]; an object of
    the JSON data that has a [toString] property of its own has no method
    there (the property is not a function, and the inherited [valueOf]
    returns the object), and the conversion throws. *)
Fixpoint toString (v : value) : exn jsstring :=
  match v with
  | Undefined => Ok (js "undefined")
  | Null => Ok (js "null")
  | Bool b => Ok (if b then js "true" else js "false")
  | Num n => Ok (number_to_string n)
  | Str s => Ok s
  | Arr elems =>
      parts <-
        (fix each (l : list value) : exn (list jsstring) :=
           match l with
           | [] => Ok []
           | e :: tl =>
               part <- match e with
                       | Undefined | Null => Ok []
                       | _ => toString e
                       end ;;
               parts <- each tl ;;
               Ok (part :: parts)
           end) elems ;;
      Ok (join (js ",") parts)
  | Obj props =>
      match lookup (js "toString") props with
      | Some _ => Throw TypeError
      | None => Ok (js "[object Object]")
      end
  end.

(** ** [JSON.stringify] *)

Definition hex_digit (n : N) : N :=
  (if n <? 10 then 48 + n else 87 + n)%N.

(** [\uXXXX] *)
Definition unicode_escape (u : N) : jsstring :=
  [92%N; 117%N; hex_digit (u / 4096); hex_digit ((u / 256) mod 16);
   hex_digit ((u / 16) mod 16); hex_digit (u mod 16)]%N.

Definition escape_unit (u : N) : jsstring :=
  (if u =? 8 then [92; 98]
   else if u =? 9 then [92; 116]
   else if u =? 10 then [92; 110]
   else if u =? 12 then [92; 102]
   else if u =? 13 then [92; 114]
   else if u =? 34 then [92; 34]
   else if u =? 92 then [92; 92]
   else if u <? 32 then unicode_escape u
   else [u])%N.

(** The body of a quoted JSON string: pairs of surrogates are kept, a lone
    surrogate is written as an escape. *)
Fixpoint escape (s : jsstring) : jsstring :=
  match s with
  | [] => []
  | u :: rest =>
      if is_high u then
        match rest with
        | l :: rest' =>
            if is_low l then u :: l :: escape rest'
            else unicode_escape u ++ escape rest
        | [] => unicode_escape u
        end
      else if is_low u then unicode_escape u ++ escape rest
      else escape_unit u ++ escape rest
  end.

Definition quote (s : jsstring) : jsstring := 34%N :: escape s ++ [34%N].

(** [JSON.stringify(v)]; [None] is the result [undefined].  A property
    whose value is [undefined] is left out of an object, and written
    [null] in an array. *)
Fixpoint stringify (v : value) : option jsstring :=
  match v with
  | Undefined => None
  | Null => Some (js "null")
  | Bool b => Some (if b then js "true" else js "false")
  | Num n => Some (number_to_string n)
  | Str s => Some (quote s)
  | Arr elems =>
      Some (js "[" ++
            join (js ",")
              (map (fun e => match stringify e with
                             | Some t => t
                             | None => js "null"
                             end) elems) ++
            js "]")
  | Obj props =>
      Some (js "{" ++
            join (js ",")
              (flat_map (fun p => match stringify (snd p) with
                                  | Some t => [quote (fst p) ++ js ":" ++ t]
                                  | None => []
                                  end) props) ++
            js "}")
  end.

(** ** Numbers

    JavaScript numbers are binary64 floating-point values.  The byte and
    character counts are integers far below 2^53, on which [+] and [-] are
    exact: they are integers here.  A value that goes through a division
    or a decimal literal is a rational, rounded to binary64 (to nearest,
    ties to even) by [round64]; overflow and subnormal results are out of
    reach of the quantities of this program. *)

Definition round64 (x : Q) : Q :=
  let a := Z.abs (Qnum x) in
  let q := Z.pos (Qden x) in
  if a =? 0 then 0%Q
  else
    let k := Z.log2 a - Z.log2 q in
    let E :=
      if a * 2 ^ Z.max 0 (- k) <? q * 2 ^ Z.max 0 k then k - 1 else k in
    let shift := E - 52 in
    let N := a * 2 ^ Z.max 0 (- shift) in
    let D := q * 2 ^ Z.max 0 shift in
    let m0 := N / D in
    let r := N mod D in
    let m :=
      if 2 * r <? D then m0
      else if D <? 2 * r then m0 + 1
      else if Z.even m0 then m0 else m0 + 1 in
    Qred (Qmult (inject_Z (Z.sgn (Qnum x) * m))
                (Qpower (2 # 1) shift)).

(** [a / b] and [a * b] on numbers *)
Definition fdiv (a b : Q) : Q := round64 (Qdiv a b).
Definition fmul (a b : Q) : Q := round64 (Qmult a b).

(** [x.toFixed(1)] as the number of tenths it prints: the integer [n] with
    [n / 10] nearest to [x], the one further from zero on a tie. *)
Definition toFixed1 (x : Q) : Z :=
  let a := Z.abs (Qnum x) * 10 in
  let q := Z.pos (Qden x) in
  let n := if 2 * (a mod q) <? q then a / q else a / q + 1 in
  Z.sgn (Qnum x) * n.

(** [parseFloat(x.toFixed(1))] *)
Definition parseFloat_toFixed1 (x : Q) : Q := round64 (toFixed1 x # 10).

(** ** The functions of [index.js] *)

(** [getByteSize(content)] *)
Definition getByteSize (content : value) : Z :=
  if negb (truthy content) then 0
  else
    match content with
    | Str s => byteLength s                       (* typeof "string" *)
    | Arr _ | Obj _ =>                            (* typeof "object" *)
        match stringify content with
        | Some jsonString => byteLength jsonString
        | None => 0
        end
    | _ => 0
    end.

(** [getCharacterCount(content)] *)
Definition getCharacterCount (content : value) : Z :=
  if negb (truthy content) then 0
  else
    match content with
    | Str s => str_length s
    | Arr _ | Obj _ =>
        match stringify content with
        | Some jsonString => str_length jsonString
        | None => 0
        end
    | _ => 0
    end.

(** [l.forEach(f)], the callback threading the variables it updates. *)
Definition forEach {A S : Type} (f : A -> S -> exn S) : list A -> S -> exn S :=
  fix go (l : list A) (s : S) : exn S :=
    match l with
    | [] => Ok s
    | x :: tl =>
        match f x s with
        | Ok s' => go tl s'
        | Throw e => Throw e
        | Inherited k => Inherited k
        end
    end.

(** The closure [traverse] of [extractPlainTextFromRichText]; the variable
    [plainText] it appends to is passed in and returned.  The read of
    [node.content] is written as a search of the properties, so that the
    recursion is on the structure of the node; [traverse_unfold] below
    gives the equation in the shape of the source. *)
Fixpoint traverse (node : value) (plainText : jsstring) {struct node}
  : exn jsstring :=
  match node with
  | Undefined | Null => Throw TypeError
  | Obj props =>
      plainText <-
        match lookup (js "value") props with
        | Some v =>
            if truthy v
            then text <- toString v ;; Ok (plainText ++ text)
            else Ok plainText
        | None => Ok plainText
        end ;;
      (fix content (ps : list (jsstring * value)) : exn jsstring :=
         match ps with
         | [] => Ok plainText
         | (k, c) :: tl =>
             if jsstring_eqb (js "content") k then
               match c with
               | Arr elems => forEach traverse elems plainText
               | _ => Ok plainText
               end
             else content tl
         end) props
  | Bool _ | Num _ | Str _ | Arr _ => Ok plainText
  end.

(** [extractPlainTextFromRichText(richTextContent)] *)
Definition extractPlainTextFromRichText (richTextContent : value)
  : exn jsstring :=
  if negb (truthy richTextContent)
     || negb (String.eqb (typeof richTextContent) "object")
  then Ok []
  else traverse richTextContent [].

Record OverheadResult : Type := {
  totalSize : Z;
  contentSize : Z;
  overheadSize : Z;
  overheadPercentage : Q
}.

Definition zeroOverhead : OverheadResult :=
  {| totalSize := 0; contentSize := 0; overheadSize := 0;
     overheadPercentage := 0%Q |}.

(** [analyzeContentOverhead(content)] *)
Definition analyzeContentOverhead (content : value) : exn OverheadResult :=
  if negb (truthy content) then Ok zeroOverhead
  else
    match content with
    | Str s =>
        let size := byteLength s in
        Ok {| totalSize := size; contentSize := size; overheadSize := 0;
              overheadPercentage := 0%Q |}
    | Arr _ | Obj _ =>
        match stringify content with
        | None => Throw TypeError
        | Some jsonString =>
            let totalSize := byteLength jsonString in
            plainText <- extractPlainTextFromRichText content ;;
            let contentSize := byteLength plainText in
            let overheadSize := totalSize - contentSize in
            let overheadPercentage :=
              if 0 <? totalSize
              then fmul (fdiv (inject_Z overheadSize) (inject_Z totalSize))
                        (inject_Z 100)
              else 0%Q in
            Ok {| totalSize := totalSize; contentSize := contentSize;
                  overheadSize := overheadSize;
                  overheadPercentage := parseFloat_toFixed1 overheadPercentage |}
        end
    | _ => Ok zeroOverhead
    end.

(** ** Sorting

    [Array.prototype.sort] is stable; with a consistent comparator its
    result is the stable ascending arrangement of the array, which
    insertion from the right computes. *)

Section Sort.
Context {A : Type} (compareFn : A -> A -> Z).

Fixpoint insert (x : A) (l : list A) : list A :=
  match l with
  | [] => [x]
  | y :: tl => if compareFn x y <=? 0 then x :: l else y :: insert x tl
  end.

Fixpoint sort (l : list A) : list A :=
  match l with
  | [] => []
  | x :: tl => insert x (sort tl)
  end.
End Sort.

(** Comparison of two sequences of numbers, position by position. *)
Fixpoint lex_compare (a b : list N) : comparison :=
  match a, b with
  | [], [] => Eq
  | [], _ :: _ => Lt
  | _ :: _, [] => Gt
  | x :: a', y :: b' =>
      match N.compare x y with
      | Eq => lex_compare a' b'
      | c => c
      end
  end.

Definition sign_of (c : comparison) : Z :=
  match c with Lt => -1 | Eq => 0 | Gt => 1 end.

(** The order of the code units, the one [<] has on strings. *)
Definition code_unit_compare (a b : jsstring) : Z := sign_of (lex_compare a b).

(** [a.localeCompare(b)] is the collation of the host.  [index.js] calls
    it without a locale; the functions below take it as a parameter.
    [root_collation] is a comparator of that kind for the locale codes of
    the examples (letters, digits and the hyphen), after the root
    collation rules: letters are compared without their case first,
    digits come before letters and other signs before digits, and
    between strings that differ in case only the lower case comes first.
    The signs among themselves, and the code units outside Basic Latin,
    are kept in the order of their values, which is not everywhere the
    order of the host. *)
Definition primary_weight (u : N) : N :=
  (if is_upper u then 0x200 + (u + 32)
   else if is_lower u then 0x200 + u
   else if is_digit u then 0x100 + u
   else if u <? 0x80 then 1 + u
   else 0x300 + u)%N.

Definition tertiary_weight (u : N) : N :=
  if is_upper u then 2%N else 1%N.

Definition collation_key (s : jsstring) : list N :=
  map primary_weight s ++ 0%N :: map tertiary_weight s.

Definition root_collation (a b : jsstring) : Z :=
  sign_of (lex_compare (collation_key a) (collation_key b)).

(** ** The analysis *)

Record Locale : Type := { code : jsstring; name : jsstring }.

(** One element of [results].  The fields [formattedSize] and
    [formattedChars] are display strings and are left out. *)
Record LocaleResult : Type := {
  localeCode : jsstring;
  localeName : jsstring;
  sizeInBytes : Z;
  characterCount : Z;
  overheadAnalysis : OverheadResult;
  hasContent : bool
}.

(** The variables the loop over the locales updates. *)
Module Totals.
Record t : Type := {
  results : list LocaleResult;
  totalSize : Z;
  totalCharacters : Z;
  totalContentSize : Z;
  totalOverheadSize : Z;
  localesWithContent : Z
}.

Definition init : t :=
  {| results := []; totalSize := 0; totalCharacters := 0;
     totalContentSize := 0; totalOverheadSize := 0;
     localesWithContent := 0 |}.
End Totals.

(** The three branches that report the share of the limit. *)
Inductive band : Type := Warning | Caution | Safe.

Definition twoMBInBytes : Z := 2 * 1024 * 1024.

(** [a > b] on numbers *)
Definition gt (a b : Q) : bool := negb (Qle_bool a b).

(** Lines 365-377: the comparisons are made on binary64 numbers, [0.8] and
    [0.6] being the literals rounded. *)
Definition usageBand (totalEntrySize : Z) : band :=
  if gt (inject_Z totalEntrySize)
        (fmul (inject_Z twoMBInBytes) (round64 (8 # 10)))
  then Warning
  else if gt (inject_Z totalEntrySize)
             (fmul (inject_Z twoMBInBytes) (round64 (6 # 10)))
  then Caution
  else Safe.

(** [Object.keys(o)] *)
Definition keys (o : value) : exn (list jsstring) :=
  match o with
  | Undefined | Null => Throw TypeError
  | Obj props => Ok (map fst props)
  | Arr elems =>
      Ok (map (fun i => number_to_string (Z.of_nat i)) (seq 0 (List.length elems)))
  | Str s =>
      Ok (map (fun i => number_to_string (Z.of_nat i)) (seq 0 (List.length s)))
  | Bool _ | Num _ => Ok []
  end.

(** [o[k] = v] on an object kept as the list of its properties: an
    existing property keeps its place, a new one comes last. *)
Fixpoint set_prop {V : Type} (k : jsstring) (v : V) (props : list (jsstring * V))
  : list (jsstring * V) :=
  match props with
  | [] => [(k, v)]
  | (k', v') :: tl =>
      if jsstring_eqb k k' then (k', v) :: tl else (k', v') :: set_prop k v tl
  end.

(** [Buffer.byteLength(JSON.stringify(v), "utf8")] *)
Definition jsonByteLength (v : value) : exn Z :=
  match stringify v with
  | Some json => Ok (byteLength json)
  | None => Throw TypeError
  end.

(** Lines 394-408: [fieldSizes] and [sortedFields]. *)
Definition fieldBreakdown (fields : value) : exn (list (jsstring * Z)) :=
  allFields <- keys fields ;;
  fieldSizes <-
    forEach (fun fieldId fieldSizes =>
               field <- get fields fieldId ;;
               fieldTotal <- jsonByteLength field ;;
               Ok (set_prop fieldId fieldTotal fieldSizes))
            allFields [] ;;
  Ok (sort (fun a b => snd b - snd a) fieldSizes).

(** [withContent.reduce(...)] for the largest and the smallest content. *)
Definition largestOf (withContent : list LocaleResult) : option LocaleResult :=
  match withContent with
  | [] => None
  | first :: others =>
      Some (fold_left (fun max current =>
                         if sizeInBytes max <? sizeInBytes current
                         then current else max) others first)
  end.

Definition smallestOf (withContent : list LocaleResult) : option LocaleResult :=
  match withContent with
  | [] => None
  | first :: others =>
      Some (fold_left (fun min current =>
                         if sizeInBytes current <? sizeInBytes min
                         then current else min) others first)
  end.

Record Report : Type := {
  perLocale : Totals.t;
  totalEntrySize : Z;
  usage : band;
  sortedFields : list (jsstring * Z);
  largest : option LocaleResult;
  smallest : option LocaleResult
}.

(** How a run ends: the field is missing (lines 226-230, a message on the
    error stream and exit status 1), an exception reaches the [catch]
    (lines 439-448, another message and exit status 1), or the analysis
    is printed to the end.  [ReadsInherited k] is a run that reads a
    member [k] of a prototype of the host: it takes neither error path at
    that read, and is followed no further. *)
Inductive outcome : Type :=
| FieldNotFound (contentFieldId : jsstring)
| ErrorOccurred (e : error)
| AnalysisComplete (r : Report)
| ReadsInherited (k : jsstring).

(** The status given to [process.exit] on the two error paths. *)
Definition exitStatus (o : outcome) : option Z :=
  match o with
  | FieldNotFound _ | ErrorOccurred _ => Some 1
  | AnalysisComplete _ | ReadsInherited _ => None
  end.

(** The line written by [console.error] when the field is missing. *)
Definition notFoundMessage (contentFieldId : jsstring) : jsstring :=
  0x274C%N :: js " Content field '" ++ contentFieldId ++ js "' not found in entry".

(** What the two error paths write first on the error stream. *)
Definition errorLine (o : outcome) : option jsstring :=
  match o with
  | FieldNotFound contentFieldId => Some (notFoundMessage contentFieldId)
  | ErrorOccurred _ => Some (0x274C%N :: js " Error occurred:")
  | AnalysisComplete _ | ReadsInherited _ => None
  end.

(** [process.env.CONTENTFUL_CONTENT_FIELD_ID || "content"] *)
Definition contentFieldIdOf (configured : option jsstring) : jsstring :=
  match configured with
  | Some (u :: s) => u :: s
  | _ => js "content"
  end.

Section Analysis.
Variable localeCompare : jsstring -> jsstring -> Z.

(** Line 268 *)
Definition sortLocales (locales : list Locale) : list Locale :=
  sort (fun a b => localeCompare (code a) (code b)) locales.

(** The callback of [sortedLocales.forEach] (lines 270-312).  The line
    it prints for the locale (lines 299-311), after the result is pushed
    and the totals are updated, is not part of the state: a locale that
    has its result has had its line printed. *)
Definition analyzeLocale (contentField : value) (locale : Locale)
           (acc : Totals.t) : exn Totals.t :=
  let localeCode := code locale in
  let localeName := name locale in
  content <- get contentField localeCode ;;
  let sizeInBytes := getByteSize content in
  let characterCount := getCharacterCount content in
  overheadAnalysis <- analyzeContentOverhead content ;;
  let results :=
    Totals.results acc ++
    [{| localeCode := localeCode; localeName := localeName;
        sizeInBytes := sizeInBytes; characterCount := characterCount;
        overheadAnalysis := overheadAnalysis;
        hasContent := truthy content |}] in
  if truthy content then
    Ok {| Totals.results := results;
          Totals.totalSize := Totals.totalSize acc + sizeInBytes;
          Totals.totalCharacters := Totals.totalCharacters acc + characterCount;
          Totals.totalContentSize :=
            Totals.totalContentSize acc + contentSize overheadAnalysis;
          Totals.totalOverheadSize :=
            Totals.totalOverheadSize acc + overheadSize overheadAnalysis;
          Totals.localesWithContent := Totals.localesWithContent acc + 1 |}
  else
    Ok {| Totals.results := results;
          Totals.totalSize := Totals.totalSize acc;
          Totals.totalCharacters := Totals.totalCharacters acc;
          Totals.totalContentSize := Totals.totalContentSize acc;
          Totals.totalOverheadSize := Totals.totalOverheadSize acc;
          Totals.localesWithContent := Totals.localesWithContent acc |}.

(** Lines 260-312 *)
Definition analyzeLocales (contentField : value) (locales : list Locale)
  : exn Totals.t :=
  forEach (analyzeLocale contentField) (sortLocales locales) Totals.init.

(** The body of the [try] block from line 218 on, given the locales and
    the entry the client returned. *)
Definition analysis (configured : option jsstring) (locales : list Locale)
           (entry : value) : exn outcome :=
  fields <- get entry (js "fields") ;;
  _ <- keys fields ;;
  let contentFieldId := contentFieldIdOf configured in
  contentField <- get fields contentFieldId ;;
  if negb (truthy contentField) then Ok (FieldNotFound contentFieldId)
  else
    _ <- keys contentField ;;
    totals <- analyzeLocales contentField locales ;;
    totalEntrySize <- jsonByteLength entry ;;
    sortedFields <- fieldBreakdown fields ;;
    let withContent := filter hasContent (Totals.results totals) in
    Ok (AnalysisComplete
          {| perLocale := totals;
             totalEntrySize := totalEntrySize;
             usage := usageBand totalEntrySize;
             sortedFields := sortedFields;
             largest := largestOf withContent;
             smallest := smallestOf withContent |}).

(** [analyzeEntryContentSizes()] once the client has answered. *)
Definition analyzeEntryContentSizes (configured : option jsstring)
           (locales : list Locale) (entry : value) : outcome :=
  match analysis configured locales entry with
  | Ok o => o
  | Throw e => ErrorOccurred e
  | Inherited k => ReadsInherited k
  end.
End Analysis.

(** ** The data model of the specification

    A rich document is a tree: a node has an optional leaf text [value]
    and an optional ordered sequence [content] of child nodes.  The
    definitions of this part follow the words of the specification; the
    theorems compare them with the functions above. *)

Inductive RichDocument : Type :=
| Node (leaf : option jsstring) (children : option (list RichDocument)).

Definition node_value (d : RichDocument) : jsstring :=
  match d with
  | Node (Some s) _ => s
  | Node None _ => []
  end.

(** The nodes of a document in depth-first pre-order. *)
Fixpoint preorder (d : RichDocument) : list RichDocument :=
  d :: match d with
       | Node _ (Some ds) => flat_map preorder ds
       | Node _ None => []
       end.

(** The concatenation of every leaf value, in that order. *)
Definition leafText (d : RichDocument) : jsstring :=
  List.concat (map node_value (preorder d)).

(** The JSON objects that are a given document: [value], when present,
    holds the leaf string, and [content], when present, the array of the
    children.  Any other property (node type, marks, data) is free. *)
Inductive represents : value -> RichDocument -> Prop :=
| represents_leaf (props : list (jsstring * value)) (t : option jsstring) :
    lookup (js "value") props = option_map Str t ->
    lookup (js "content") props = None ->
    represents (Obj props) (Node t None)
| represents_container (props : list (jsstring * value)) (t : option jsstring)
    (elems : list value) (ds : list RichDocument) :
    lookup (js "value") props = option_map Str t ->
    lookup (js "content") props = Some (Arr elems) ->
    Forall2 represents elems ds ->
    represents (Obj props) (Node t (Some ds)).

(** A field value of the data model: absent or [null], a plain string, or
    a rich document. *)
Inductive FieldValue : value -> Prop :=
| FieldValue_absent : FieldValue Undefined
| FieldValue_null : FieldValue Null
| FieldValue_text (s : jsstring) : FieldValue (Str s)
| FieldValue_rich (v : value) (d : RichDocument) :
    represents v d -> FieldValue v.

(** The empty values: absent, [null] and the empty string. *)
Definition isEmptyValue (v : value) : bool :=
  match v with
  | Undefined | Null | Str [] => true
  | _ => false
  end.

(** The sum of a quantity over a list of results. *)
Definition sumOf {A : Type} (f : A -> Z) (l : list A) : Z :=
  fold_right (fun r n => f r + n) 0 l.

(** ** Sample data

    A field with a plain string, a rich document without text and a
    [null], and locales in an order that is not the sorted one. *)

Definition sampleField : value :=
  Obj [(js "en-US", Str (js "hello"));
       (js "de", Obj [(js "nodeType", Str (js "document"));
                      (js "content", Arr [])]);
       (js "fr", Null)].

Definition sampleLocales : list Locale :=
  [{| code := js "zh-HK"; name := js "Chinese (Hong Kong)" |};
   {| code := js "en-US"; name := js "English (United States)" |};
   {| code := js "fr"; name := js "French" |};
   {| code := js "zh-Hans"; name := js "Chinese (Simplified)" |};
   {| code := js "de"; name := js "German" |}].

(** ** Auxiliary definitions

    Quantities and predicates the proofs speak of. *)

(** The head of a string does not complete a pair: it is not a low
    surrogate. *)
Definition no_low_head (s : jsstring) : Prop :=
  match s with
  | [] => True
  | u :: _ => is_low u = false
  end.

(** The bytes a code unit that starts no pair takes. *)
Definition unit_bytes (u : N) : Z :=
  if (is_high u || is_low u)%bool then 3
  else Z.of_nat (List.length (utf8_bytes u)).

(** Every code unit is in Basic Latin: one byte each. *)
Definition ascii_only (s : jsstring) : Prop :=
  Forall (fun u => (u < 0x80)%N) s.

(** A string that is not empty and starts in Basic Latin, as every
    piece of a serialization does. *)
Definition starts_ascii (s : jsstring) : Prop :=
  match s with
  | u :: _ => (u < 0x80)%N
  | [] => False
  end.

(** The bytes of several strings, each taken alone. *)
Definition sum_bytes (parts : list jsstring) : Z :=
  fold_right (fun p n => byteLength p + n) 0 parts.

(** The bytes of [JSON.stringify(v)], none when it is [undefined]. *)
Definition jsonBytes (v : value) : Z :=
  match stringify v with
  | Some j => byteLength j
  | None => 0
  end.

(** The bytes of the leaf values of a document, each taken alone. *)
Definition textBytes (d : RichDocument) : Z :=
  sum_bytes (map node_value (preorder d)).

(** What [stringify] writes for an element of an array and for a
    property of an object. *)
Definition elementText (e : value) : jsstring :=
  match stringify e with
  | Some t => t
  | None => js "null"
  end.

Definition memberText (p : jsstring * value) : list jsstring :=
  match stringify (snd p) with
  | Some t => [quote (fst p) ++ js ":" ++ t]
  | None => []
  end.

(** The running totals are the sums over the results with content. *)
Definition totalsAgree (t : Totals.t) : Prop :=
  let withContent := filter hasContent (Totals.results t) in
  Totals.totalSize t = sumOf sizeInBytes withContent /\
  Totals.totalCharacters t = sumOf characterCount withContent /\
  Totals.totalContentSize t
  = sumOf (fun r => contentSize (overheadAnalysis r)) withContent /\
  Totals.totalOverheadSize t
  = sumOf (fun r => overheadSize (overheadAnalysis r)) withContent /\
  Totals.localesWithContent t = Z.of_nat (List.length withContent).

(** A result holds the measures of the value the field has for its
    locale. *)
Definition measures (contentField : value) (r : LocaleResult) : Prop :=
  exists content,
    get contentField (localeCode r) = Ok content /\
    hasContent r = truthy content /\
    sizeInBytes r = getByteSize content /\
    characterCount r = getCharacterCount content /\
    analyzeContentOverhead content = Ok (overheadAnalysis r).

(** The field has a value of the data model for this locale code. *)
Definition fieldValueAt (contentField : value) (k : jsstring) : Prop :=
  exists content, get contentField k = Ok content /\ FieldValue content.

(** A field with the byte length of its serialization. *)
Definition fieldSize (p : jsstring * value) : jsstring * Z :=
  (fst p, jsonBytes (snd p)).

(** ** The character count as text *)

(** [x.toFixed(1)] as the string it is: the sign, the tenths but the last
    digit, a point and the last digit. *)
Definition toFixed1_string (x : Q) : jsstring :=
  let n := Z.abs (toFixed1 x) in
  (if Qnum x <? 0 then js "-" else []) ++
  number_to_string (n / 10) ++ js "." ++ number_to_string (n mod 10).

(** [formatCharacterCount(chars)] *)
Definition formatCharacterCount (chars : Z) : jsstring :=
  if chars =? 0 then js "0 chars"
  else if chars <? 1000 then number_to_string chars ++ js " chars"
  else if chars <? 1000000
  then toFixed1_string (fdiv (inject_Z chars) (inject_Z 1000)) ++ js "K chars"
  else toFixed1_string (fdiv (inject_Z chars) (inject_Z 1000000)) ++ js "M chars".

(** ** Values the extractor accepts *)

(** A value that has a conversion to a string: no object in it, at any
    depth of the arrays, has a [toString] property of its own. *)
Fixpoint convertible (v : value) : bool :=
  match v with
  | Arr elems => forallb convertible elems
  | Obj props =>
      match lookup (js "toString") props with
      | Some _ => false
      | None => true
      end
  | _ => true
  end.

(** No array under a [content] property holds [null] or [undefined], at
    any depth of the objects it holds. *)
Fixpoint noNullChild (v : value) : bool :=
  match v with
  | Obj props =>
      forallb (fun p =>
                 let '(k, c) := p in
                 if jsstring_eqb (js "content") k then
                   match c with
                   | Arr elems =>
                       forallb (fun e => match e with
                                         | Undefined | Null => false
                                         | _ => noNullChild e
                                         end) elems
                   | _ => true
                   end
                 else true) props
  | _ => true
  end.

(** Every [value] property of a node the extractor visits has a
    conversion to a string. *)
Fixpoint convertibleValues (v : value) : bool :=
  match v with
  | Obj props =>
      match lookup (js "value") props with
      | Some x => convertible x
      | None => true
      end &&
      forallb (fun p =>
                 let '(k, c) := p in
                 if jsstring_eqb (js "content") k then
                   match c with
                   | Arr elems => forallb convertibleValues elems
                   | _ => true
                   end
                 else true) props
  | _ => true
  end.

(** The values on which the extractor returns: both conditions. *)
Definition extractable (v : value) : bool :=
  noNullChild v && convertibleValues v.

(** A value that is neither [null] nor [undefined]: its properties can
    be read. *)
Definition notNullish (v : value) : bool :=
  match v with
  | Undefined | Null => false
  | _ => true
  end.

(** The property [k] of an object kept as its properties, [undefined]
    when it has none. *)
Definition propertyOr (k : jsstring) (props : list (jsstring * value)) : value :=
  match lookup k props with
  | Some v => v
  | None => Undefined
  end.

(** * Properties *)

(** ** Strings and their UTF-8 length *)

Lemma jsstring_eqb_eq (a b : jsstring) : jsstring_eqb a b = true <-> a = b.
Proof.
  revert b; induction a as [|x a IH]; intros [|y b]; simpl; split;
    try congruence; try reflexivity.
  - intros H. apply andb_true_iff in H as [H1 H2].
    apply N.eqb_eq in H1. apply IH in H2. congruence.
  - intros H. injection H as -> ->. rewrite N.eqb_refl. now apply IH.
Qed.

Lemma jsstring_eqb_refl (a : jsstring) : jsstring_eqb a a = true.
Proof. now apply jsstring_eqb_eq. Qed.

Lemma jsstring_eqb_neq (a b : jsstring) : jsstring_eqb a b = false <-> a <> b.
Proof.
  destruct (jsstring_eqb a b) eqn:E; split; try congruence.
  - apply jsstring_eqb_eq in E. congruence.
  - intros _ H. apply jsstring_eqb_eq in H. congruence.
Qed.

(** An induction that follows the way [code_points] reads a string: a
    pair of surrogates, or one code unit that starts no pair. *)
Lemma surrogate_ind (P : jsstring -> Prop) :
  P [] ->
  (forall h l rest, is_high h = true -> is_low l = true ->
                    P rest -> P (h :: l :: rest)) ->
  (forall u rest, is_high u = false \/ no_low_head rest ->
                  P rest -> P (u :: rest)) ->
  forall s, P s.
Proof.
  intros Hnil Hpair Hone s.
  assert (H : P s /\ forall u, P (u :: s)).
  { induction s as [|x s [IH1 IH2]].
    - split; [exact Hnil|]. intros u. apply Hone; [right; exact I|exact Hnil].
    - split; [apply IH2|]. intros u.
      destruct (is_high u) eqn:Eh.
      + destruct (is_low x) eqn:El.
        * now apply Hpair.
        * apply Hone; [right; exact El|apply IH2].
      + apply Hone; [now left|apply IH2]. }
  apply H.
Qed.

Lemma surrogate_range (u : N) :
  (is_high u || is_low u)%bool = true -> (0xD800 <= u <= 0xDFFF)%N.
Proof. unfold is_high, is_low. lia. Qed.

Lemma high_not_low (u : N) : is_high u = true -> is_low u = false.
Proof. unfold is_high, is_low. lia. Qed.

Lemma unit_bytes_bounds (u : N) : 1 <= unit_bytes u <= 4.
Proof.
  unfold unit_bytes, utf8_bytes.
  destruct (is_high u || is_low u)%bool; [lia|].
  destruct (u <? 128)%N; [simpl; lia|].
  destruct (u <? 2048)%N; [simpl; lia|].
  destruct (u <? 65536)%N; simpl; lia.
Qed.

Lemma unit_bytes_ascii (u : N) : (u < 0x80)%N -> unit_bytes u = 1.
Proof.
  intros H. unfold unit_bytes, utf8_bytes, is_high, is_low.
  replace (u <? 128)%N with true by lia.
  destruct (_ || _)%bool eqn:E; [lia|reflexivity].
Qed.

Lemma unit_bytes_multi (u : N) : (0x80 <= u)%N -> 2 <= unit_bytes u.
Proof.
  intros H. unfold unit_bytes, utf8_bytes.
  destruct (is_high u || is_low u)%bool; [lia|].
  replace (u <? 128)%N with false by lia.
  destruct (u <? 2048)%N; [simpl; lia|].
  destruct (u <? 65536)%N; simpl; lia.
Qed.

Lemma byteLength_nil : byteLength [] = 0.
Proof. reflexivity. Qed.

Lemma utf8_bytes_pair (h l : N) :
  List.length (utf8_bytes (surrogate_pair h l)) = 4%nat.
Proof.
  unfold utf8_bytes.
  assert (H : (0x10000 <= surrogate_pair h l)%N) by (unfold surrogate_pair; lia).
  destruct (N.ltb_spec (surrogate_pair h l) 0x80); [lia|].
  destruct (N.ltb_spec (surrogate_pair h l) 0x800); [lia|].
  destruct (N.ltb_spec (surrogate_pair h l) 0x10000); [lia|reflexivity].
Qed.

Lemma byteLength_pair (h l : N) (rest : jsstring) :
  is_high h = true -> is_low l = true ->
  byteLength (h :: l :: rest) = 4 + byteLength rest.
Proof.
  intros Hh Hl. unfold byteLength, utf8_encode. cbn [code_points].
  rewrite Hh, Hl. cbn [flat_map]. rewrite length_app, utf8_bytes_pair. lia.
Qed.

Lemma code_points_unit (u : N) (rest : jsstring) :
  is_high u = false \/ no_low_head rest ->
  code_points (u :: rest) =
  (if (is_high u || is_low u)%bool then 0xFFFD%N else u) :: code_points rest.
Proof.
  intros H.
  transitivity
    (if is_high u then
       match rest with
       | l :: rest' =>
           if is_low l then surrogate_pair u l :: code_points rest'
           else 0xFFFD%N :: code_points rest
       | [] => [0xFFFD%N]
       end
     else if is_low u then 0xFFFD%N :: code_points rest
     else u :: code_points rest); [reflexivity|].
  destruct (is_high u) eqn:Eh; cbn [orb].
  - destruct H as [H|H]; [discriminate|].
    destruct rest as [|l rest']; [reflexivity|].
    change (is_low l = false) in H. now rewrite H.
  - destruct (is_low u); reflexivity.
Qed.

Lemma byteLength_unit (u : N) (rest : jsstring) :
  is_high u = false \/ no_low_head rest ->
  byteLength (u :: rest) = unit_bytes u + byteLength rest.
Proof.
  intros H. unfold byteLength, utf8_encode, unit_bytes.
  rewrite code_points_unit by exact H. cbn [flat_map]. rewrite length_app.
  destruct (is_high u || is_low u)%bool.
  - change (List.length (utf8_bytes 0xFFFD%N)) with 3%nat. lia.
  - lia.
Qed.

Lemma byteLength_nonneg (s : jsstring) : 0 <= byteLength s.
Proof. unfold byteLength. lia. Qed.

Lemma unit_bytes_surrogate (u : N) :
  (is_high u || is_low u)%bool = true -> unit_bytes u = 3.
Proof. intros H. unfold unit_bytes. now rewrite H. Qed.

Lemma low_not_high (u : N) : is_low u = true -> is_high u = false.
Proof. unfold is_high, is_low. lia. Qed.

Lemma str_length_cons (u : N) (s : jsstring) :
  str_length (u :: s) = 1 + str_length s.
Proof. unfold str_length. cbn [List.length]. lia. Qed.

(** A string takes at least one byte per code unit. *)
Lemma byteLength_ge_length (s : jsstring) : str_length s <= byteLength s.
Proof.
  induction s as [| h l rest Hh Hl IH | u rest Hu IH] using surrogate_ind.
  - reflexivity.
  - rewrite byteLength_pair by assumption. rewrite !str_length_cons. lia.
  - rewrite byteLength_unit by assumption.
    pose proof (unit_bytes_bounds u). rewrite str_length_cons. lia.
Qed.

(** Concatenation can only join a pair of surrogates: it never adds
    bytes. *)
Lemma byteLength_app_le (a b : jsstring) :
  byteLength (a ++ b) <= byteLength a + byteLength b.
Proof.
  induction a as [| h l rest Hh Hl IH | u rest Hu IH] using surrogate_ind.
  - cbn [app]. rewrite byteLength_nil. lia.
  - cbn [app]. rewrite !byteLength_pair by assumption. lia.
  - destruct rest as [|x rest].
    + cbn [app]. clear IH Hu.
      rewrite (byteLength_unit u []) by (right; exact I).
      rewrite byteLength_nil.
      destruct (is_high u) eqn:Eh.
      * destruct b as [|l b'].
        -- rewrite (byteLength_unit u []) by (right; exact I).
           rewrite byteLength_nil. lia.
        -- destruct (is_low l) eqn:El.
           ++ rewrite byteLength_pair by assumption.
              rewrite (byteLength_unit l b') by (left; now apply low_not_high).
              rewrite (unit_bytes_surrogate u) by (rewrite Eh; reflexivity).
              rewrite (unit_bytes_surrogate l)
                by (rewrite El; apply orb_true_r).
              lia.
           ++ rewrite (byteLength_unit u (l :: b')) by (right; exact El). lia.
      * rewrite (byteLength_unit u b) by now left. lia.
    + cbn [app] in *.
      rewrite (byteLength_unit u (x :: rest ++ b)) by exact Hu.
      rewrite (byteLength_unit u (x :: rest)) by exact Hu. lia.
Qed.

(** When the second string does not start with a low surrogate, the
    lengths add up. *)
Lemma byteLength_app (a b : jsstring) :
  no_low_head b -> byteLength (a ++ b) = byteLength a + byteLength b.
Proof.
  intros Hb.
  induction a as [| h l rest Hh Hl IH | u rest Hu IH] using surrogate_ind.
  - cbn [app]. rewrite byteLength_nil. lia.
  - cbn [app]. rewrite !byteLength_pair by assumption. lia.
  - cbn [app].
    rewrite (byteLength_unit u rest) by exact Hu.
    rewrite byteLength_unit; [lia|].
    destruct Hu as [Hu|Hu]; [now left|right].
    destruct rest; [exact Hb|exact Hu].
Qed.

Lemma ascii_not_low (u : N) : (u < 0x80)%N -> is_low u = false.
Proof. unfold is_low. lia. Qed.

Lemma ascii_not_high (u : N) : (u < 0x80)%N -> is_high u = false.
Proof. unfold is_high. lia. Qed.

Lemma byteLength_ascii_app (p s : jsstring) :
  ascii_only p -> byteLength (p ++ s) = str_length p + byteLength s.
Proof.
  induction 1 as [|u p Hu Hp IH]; cbn [app].
  - reflexivity.
  - rewrite byteLength_unit by (left; now apply ascii_not_high).
    rewrite unit_bytes_ascii by exact Hu. rewrite IH, str_length_cons. lia.
Qed.

Lemma byteLength_ascii (p : jsstring) :
  ascii_only p -> byteLength p = str_length p.
Proof.
  intros H. rewrite <- (app_nil_r p) at 1.
  rewrite byteLength_ascii_app by exact H. rewrite byteLength_nil. lia.
Qed.

Lemma byteLength_concat_le (parts : list jsstring) :
  byteLength (List.concat parts) <= fold_right (fun p n => byteLength p + n) 0 parts.
Proof.
  induction parts as [|p parts IH]; cbn [List.concat fold_right].
  - rewrite byteLength_nil. lia.
  - pose proof (byteLength_app_le p (List.concat parts)). lia.
Qed.

(** ** The text extractor *)

Lemma RichDocument_ind' (P : RichDocument -> Prop) :
  (forall t, P (Node t None)) ->
  (forall t ds, Forall P ds -> P (Node t (Some ds))) ->
  forall d, P d.
Proof.
  intros Hleaf Hcont. fix IH 1. intros [t [ds|]].
  - apply Hcont. induction ds as [|d ds IHds]; constructor.
    + apply IH.
    + exact IHds.
  - apply Hleaf.
Qed.

Lemma leafText_container (t : option jsstring) (ds : list RichDocument) :
  leafText (Node t (Some ds)) =
  node_value (Node t (Some ds)) ++ List.concat (map leafText ds).
Proof.
  unfold leafText. simpl preorder. simpl map. simpl List.concat. f_equal.
  induction ds as [|d ds IH]; [reflexivity|].
  simpl flat_map. rewrite map_app, concat_app. simpl map. simpl List.concat.
  now rewrite IH.
Qed.

Lemma leafText_leaf (t : option jsstring) :
  leafText (Node t None) = node_value (Node t None).
Proof. unfold leafText. simpl. now rewrite app_nil_r. Qed.

(** The equation of [traverse] in the shape of the source: the two reads
    [node.value] and [node.content], the test and the loop. *)
Lemma get_own (props : list (jsstring * value)) (k : jsstring) (v : value) :
  lookup k props = Some v -> get (Obj props) k = Ok v.
Proof. intros H. cbn [get]. now rewrite H. Qed.

(** A key that is not the name of a member of [Object.prototype] reads
    the property of the object, or [undefined]. *)
Lemma get_Obj (props : list (jsstring * value)) (k : jsstring) :
  existsb (jsstring_eqb k) objectPrototypeNames = false ->
  get (Obj props) k = Ok (propertyOr k props).
Proof.
  intros H. unfold propertyOr. cbn [get inherits]. rewrite H.
  destruct (lookup k props); reflexivity.
Qed.

(** What [get] returns from an object is the property, or [undefined]. *)
Lemma get_Obj_Ok (props : list (jsstring * value)) (k : jsstring) (v : value) :
  get (Obj props) k = Ok v -> v = propertyOr k props.
Proof.
  unfold propertyOr. cbn [get inherits].
  destruct (lookup k props); [congruence|].
  destruct (existsb (jsstring_eqb k) objectPrototypeNames); congruence.
Qed.

(** The equation of [traverse] in the shape of the source: the two reads
    [node.value] and [node.content], the test and the loop. *)
Lemma traverse_unfold (node : value) (plainText : jsstring) :
  traverse node plainText =
  (v <- get node (js "value") ;;
   plainText <- (if truthy v
                 then text <- toString v ;; Ok (plainText ++ text)
                 else Ok plainText) ;;
   c <- get node (js "content") ;;
   if truthy c && isArray c
   then forEach traverse (match c with Arr elems => elems | _ => [] end) plainText
   else Ok plainText).
Proof.
  destruct node as [| |b|n|s|elems|props]; try reflexivity.
  rewrite !get_Obj by reflexivity. unfold propertyOr.
  cbn [traverse bind].
  assert (Hpt :
    (if truthy match lookup (js "value") props with
               | Some v => v | None => Undefined end
     then text <- toString match lookup (js "value") props with
                           | Some v => v | None => Undefined end ;;
          Ok (plainText ++ text)
     else Ok plainText)
    = match lookup (js "value") props with
      | Some v => if truthy v
                  then text <- toString v ;; Ok (plainText ++ text)
                  else Ok plainText
      | None => Ok plainText
      end) by (destruct (lookup (js "value") props); reflexivity).
  rewrite Hpt. clear Hpt.
  destruct (match lookup (js "value") props with
            | Some v => if truthy v
                        then text <- toString v ;; Ok (plainText ++ text)
                        else Ok plainText
            | None => Ok plainText
            end) as [pt|e|k]; cbn [bind]; try reflexivity.
  induction props as [|[k c] tl IH]; [reflexivity|].
  cbn [lookup]. destruct (jsstring_eqb (js "content") k).
  - destruct c; cbn [truthy isArray]; rewrite ?andb_false_r; reflexivity.
  - exact IH.
Qed.

Lemma forEach_traverse (elems : list value) (ds : list RichDocument) :
  Forall2 represents elems ds ->
  Forall (fun d => forall v, represents v d ->
                   forall acc, traverse v acc = Ok (acc ++ leafText d)) ds ->
  forall acc,
    forEach traverse elems acc = Ok (acc ++ List.concat (map leafText ds)).
Proof.
  induction 1 as [|v d elems ds Hv _ IH]; intros Hall acc; simpl.
  - now rewrite app_nil_r.
  - inversion Hall as [|? ? Hd Hds]; subst.
    rewrite (Hd v Hv acc). rewrite (IH Hds). now rewrite app_assoc.
Qed.

Lemma truthy_leaf (t : option jsstring) (acc : jsstring) :
  (if truthy match option_map Str t with Some v => v | None => Undefined end
   then text <- toString match option_map Str t with
                         | Some v => v | None => Undefined end ;;
        Ok (acc ++ text)
   else Ok acc) = Ok (acc ++ match t with Some s => s | None => [] end).
Proof.
  destruct t as [[|u s]|]; simpl; try reflexivity; now rewrite app_nil_r.
Qed.

Lemma traverse_represents (d : RichDocument) :
  forall v, represents v d ->
  forall acc, traverse v acc = Ok (acc ++ leafText d).
Proof.
  induction d as [t|t ds IH] using RichDocument_ind'; intros v Hrep acc;
    inversion Hrep as [props t' Hval Hcont|props t' elems ds' Hval Hcont Hkids];
    subst; rewrite traverse_unfold; rewrite !get_Obj by reflexivity;
    unfold propertyOr; cbn [bind]; rewrite Hval, Hcont;
    rewrite truthy_leaf; cbn [bind].
  - simpl. rewrite leafText_leaf. destruct t; reflexivity.
  - simpl andb. cbv iota.
    rewrite (forEach_traverse elems ds Hkids IH).
    rewrite leafText_container, <- app_assoc. destruct t; reflexivity.
Qed.

Lemma extract_represents (v : value) (d : RichDocument) :
  represents v d -> extractPlainTextFromRichText v = Ok (leafText d).
Proof.
  intros H. unfold extractPlainTextFromRichText.
  assert (Hobj : exists props, v = Obj props) by (inversion H; eauto).
  destruct Hobj as [props ->]. simpl. apply (traverse_represents d _ H []).
Qed.

(** C3: for every rich-document tree the extractor returns the
    concatenation, in depth-first pre-order, of the leaf values of its
    nodes; the document [{content: [{value: "a"}, {content: [{value:
    "b"}]}]}] gives ["ab"], and a document with neither [content] nor
    [value] gives the empty string. *)
Theorem extractPlainText_preorder :
  (forall v d, represents v d ->
               extractPlainTextFromRichText v = Ok (leafText d)) /\
  extractPlainTextFromRichText
    (Obj [(js "content",
           Arr [Obj [(js "value", Str (js "a"))];
                Obj [(js "content", Arr [Obj [(js "value", Str (js "b"))]])]])])
  = Ok (js "ab") /\
  (forall props,
      lookup (js "value") props = None ->
      lookup (js "content") props = None ->
      extractPlainTextFromRichText (Obj props) = Ok []).
Proof.
  split; [exact extract_represents|]. split; [reflexivity|].
  intros props Hv Hc.
  exact (extract_represents (Obj props) (Node None None)
           (represents_leaf props None Hv Hc)).
Qed.

Lemma extractPlainText_preorder_witness :
  represents
    (Obj [(js "nodeType", Str (js "document"));
          (js "content",
           Arr [Obj [(js "nodeType", Str (js "text")); (js "value", Str (js "Hi"))];
                Obj [(js "value", Str (js "!")); (js "content", Arr [])]])])
    (Node None (Some [Node (Some (js "Hi")) None;
                      Node (Some (js "!")) (Some [])])) /\
  extractPlainTextFromRichText
    (Obj [(js "nodeType", Str (js "document"));
          (js "content",
           Arr [Obj [(js "nodeType", Str (js "text")); (js "value", Str (js "Hi"))];
                Obj [(js "value", Str (js "!")); (js "content", Arr [])]])])
  = Ok (js "Hi!").
Proof.
  assert (H : represents
    (Obj [(js "nodeType", Str (js "document"));
          (js "content",
           Arr [Obj [(js "nodeType", Str (js "text")); (js "value", Str (js "Hi"))];
                Obj [(js "value", Str (js "!")); (js "content", Arr [])]])])
    (Node None (Some [Node (Some (js "Hi")) None;
                      Node (Some (js "!")) (Some [])]))).
  { eapply (represents_container _ None); [reflexivity|reflexivity|].
    constructor.
    - apply (represents_leaf _ (Some (js "Hi"))); reflexivity.
    - constructor; [|constructor].
      eapply (represents_container _ (Some (js "!"))); [reflexivity|reflexivity|].
      constructor. }
  split; [exact H|].
  exact (proj1 extractPlainText_preorder _ _ H).
Defined.

(** C4: the extractor is not total over arbitrary tree shapes: on a
    [content] array that holds [null] the closure reads a property of
    [null] and the call throws. *)
Theorem extractPlainText_null_child :
  extractPlainTextFromRichText (Obj [(js "content", Arr [Null])])
  = Throw TypeError.
Proof. reflexivity. Qed.

(** ** The size of a serialization *)

Lemma starts_ascii_no_low (s : jsstring) : starts_ascii s -> no_low_head s.
Proof. destruct s as [|u s]; simpl; [easy|apply ascii_not_low]. Qed.

Lemma starts_ascii_app (a b : jsstring) : starts_ascii a -> starts_ascii (a ++ b).
Proof. destruct a; simpl; easy. Qed.

Lemma number_to_string_starts (n : Z) : starts_ascii (number_to_string n).
Proof.
  unfold number_to_string. destruct (Z.to_int n) as [d|d].
  - destruct d; simpl; lia.
  - simpl. lia.
Qed.

Lemma stringify_starts (v : value) (j : jsstring) :
  stringify v = Some j -> starts_ascii j.
Proof.
  destruct v as [| |b|n|s|elems|props]; simpl; try discriminate;
    intros [= <-]; simpl; try lia.
  - destruct b; simpl; lia.
  - apply number_to_string_starts.
Qed.

Lemma hex_digit_ascii (n : N) : (n < 16)%N -> (hex_digit n < 0x80)%N.
Proof. unfold hex_digit. intros H. destruct (n <? 10)%N eqn:E; lia. Qed.

Lemma unicode_escape_ascii (u : N) :
  (u < 0x10000)%N -> ascii_only (unicode_escape u).
Proof.
  intros H. unfold unicode_escape.
  assert (u / 4096 < 16)%N by (apply N.Div0.div_lt_upper_bound; lia).
  assert ((u / 256) mod 16 < 16)%N by (apply N.mod_lt; lia).
  assert ((u / 16) mod 16 < 16)%N by (apply N.mod_lt; lia).
  assert (u mod 16 < 16)%N by (apply N.mod_lt; lia).
  repeat constructor; try lia; now apply hex_digit_ascii.
Qed.

Lemma byteLength_unicode_escape (u : N) (s : jsstring) :
  (u < 0x10000)%N -> byteLength (unicode_escape u ++ s) = 6 + byteLength s.
Proof.
  intros H. rewrite byteLength_ascii_app by now apply unicode_escape_ascii.
  reflexivity.
Qed.

Local Ltac short_escape :=
  cbv iota;
  rewrite byteLength_ascii_app by (repeat constructor; lia);
  rewrite unit_bytes_ascii by lia;
  unfold str_length; cbn [List.length]; lia.

Lemma byteLength_escape_unit (u : N) (s : jsstring) :
  is_high u = false -> is_low u = false ->
  unit_bytes u + byteLength s <= byteLength (escape_unit u ++ s).
Proof.
  intros Hh Hl. unfold escape_unit.
  destruct (N.eqb_spec u 8) as [->|_]; [short_escape|].
  destruct (N.eqb_spec u 9) as [->|_]; [short_escape|].
  destruct (N.eqb_spec u 10) as [->|_]; [short_escape|].
  destruct (N.eqb_spec u 12) as [->|_]; [short_escape|].
  destruct (N.eqb_spec u 13) as [->|_]; [short_escape|].
  destruct (N.eqb_spec u 34) as [->|_]; [short_escape|].
  destruct (N.eqb_spec u 92) as [->|_]; [short_escape|].
  cbv iota. destruct (N.ltb_spec u 32).
  - rewrite byteLength_unicode_escape by lia.
    rewrite unit_bytes_ascii by lia. lia.
  - cbn [app]. rewrite byteLength_unit by now left. lia.
Qed.

(** Escaping never makes a string shorter in bytes. *)
Lemma escape_ge (s : jsstring) : byteLength s <= byteLength (escape s).
Proof.
  induction s as [| h l rest Hh Hl IH | u rest Hu IH] using surrogate_ind.
  - simpl. lia.
  - cbn [escape]. rewrite Hh, Hl. rewrite !byteLength_pair by assumption. lia.
  - rewrite byteLength_unit by exact Hu. cbn [escape].
    destruct (is_high u) eqn:Eh.
    + destruct Hu as [Hu|Hu]; [discriminate|].
      assert (Hr : (u < 0x10000)%N) by (unfold is_high in Eh; lia).
      assert (Hb : unit_bytes u = 3) by (unfold unit_bytes; now rewrite Eh).
      destruct rest as [|l rest'].
      * rewrite <- (app_nil_r (unicode_escape u)).
        rewrite byteLength_unicode_escape by exact Hr.
        rewrite byteLength_nil in *. lia.
      * simpl in Hu. rewrite Hu.
        rewrite byteLength_unicode_escape by exact Hr. lia.
    + destruct (is_low u) eqn:El.
      * assert (Hr : (u < 0x10000)%N) by (unfold is_low in El; lia).
        assert (Hb : unit_bytes u = 3)
          by (unfold unit_bytes; rewrite Eh, El; reflexivity).
        rewrite byteLength_unicode_escape by exact Hr. lia.
      * pose proof (byteLength_escape_unit u (escape rest) Eh El). lia.
Qed.

Lemma byteLength_quote (s : jsstring) :
  byteLength (quote s) = byteLength (escape s) + 2.
Proof.
  unfold quote. rewrite byteLength_unit by (left; reflexivity).
  rewrite byteLength_app by reflexivity.
  change (unit_bytes 34) with 1. change (byteLength [34%N]) with 1. lia.
Qed.

Lemma quote_ge (s : jsstring) : byteLength s + 2 <= byteLength (quote s).
Proof. rewrite byteLength_quote. pose proof (escape_ge s). lia. Qed.

Lemma join_starts (sep : jsstring) (parts : list jsstring) :
  parts <> [] -> Forall starts_ascii parts -> starts_ascii (join sep parts).
Proof.
  intros Hne Hall. destruct parts as [|p tl]; [congruence|].
  inversion Hall; subst. simpl. destruct tl; [assumption|].
  now apply starts_ascii_app.
Qed.

Lemma byteLength_join_ge (sep : jsstring) (parts : list jsstring) :
  starts_ascii sep -> Forall starts_ascii parts ->
  sum_bytes parts <= byteLength (join sep parts).
Proof.
  intros Hsep. induction 1 as [|p tl Hp Htl IH].
  - simpl. rewrite byteLength_nil. lia.
  - destruct tl as [|q tl'].
    + simpl. lia.
    + change (join sep (p :: q :: tl')) with (p ++ sep ++ join sep (q :: tl')).
      rewrite byteLength_app
        by (apply starts_ascii_no_low, starts_ascii_app, Hsep).
      rewrite byteLength_app
        by (apply starts_ascii_no_low, join_starts; [discriminate|exact Htl]).
      pose proof (byteLength_nonneg sep).
      change (sum_bytes (p :: q :: tl'))
        with (byteLength p + sum_bytes (q :: tl')). lia.
Qed.

Lemma byteLength_bracket (o c : N) (body : jsstring) :
  (o < 0x80)%N -> (c < 0x80)%N ->
  byteLength (o :: body ++ [c]) = byteLength body + 2.
Proof.
  intros Ho Hc. rewrite byteLength_unit by (left; unfold is_high; lia).
  rewrite byteLength_app by (simpl; now apply ascii_not_low).
  rewrite unit_bytes_ascii by exact Ho.
  rewrite (byteLength_unit c []) by (left; unfold is_high; lia).
  rewrite unit_bytes_ascii by exact Hc. rewrite byteLength_nil. lia.
Qed.

Lemma jsonBytes_nonneg (v : value) : 0 <= jsonBytes v.
Proof. unfold jsonBytes. destruct (stringify v); [apply byteLength_nonneg|lia]. Qed.

Lemma stringify_Arr (elems : list value) :
  stringify (Arr elems) =
  Some (91%N :: join (js ",") (map elementText elems) ++ [93%N]).
Proof. reflexivity. Qed.

Lemma stringify_Obj (props : list (jsstring * value)) :
  stringify (Obj props) =
  Some (123%N :: join (js ",") (flat_map memberText props) ++ [125%N]).
Proof. reflexivity. Qed.

Lemma sum_bytes_cons (p : jsstring) (l : list jsstring) :
  sum_bytes (p :: l) = byteLength p + sum_bytes l.
Proof. reflexivity. Qed.

Lemma sumOf_cons {A : Type} (f : A -> Z) (x : A) (l : list A) :
  sumOf f (x :: l) = f x + sumOf f l.
Proof. reflexivity. Qed.

(** An array is at least as long as its elements together, and an object
    as the values of its properties. *)
Lemma stringify_arr_ge (elems : list value) :
  sumOf jsonBytes elems + 2 <= jsonBytes (Arr elems).
Proof.
  unfold jsonBytes at 2. rewrite stringify_Arr.
  rewrite byteLength_bracket by lia.
  assert (Hparts : Forall starts_ascii (map elementText elems) /\
                   sumOf jsonBytes elems <= sum_bytes (map elementText elems)).
  { induction elems as [|e elems [IH1 IH2]]; cbn [map].
    - split; [constructor|reflexivity].
    - rewrite sum_bytes_cons, sumOf_cons.
      unfold jsonBytes at 1. unfold elementText at 1 3.
      destruct (stringify e) as [t|] eqn:E.
      + split; [constructor; [now apply (stringify_starts e)|exact IH1]|lia].
      + split; [constructor; [cbn; lia|exact IH1]|].
        pose proof (byteLength_nonneg (js "null")). lia. }
  destruct Hparts as [H1 H2].
  pose proof (byteLength_join_ge (js ",") _ ltac:(cbn; lia) H1). lia.
Qed.

Lemma memberText_bytes (k : jsstring) (x : value) :
  Forall starts_ascii (memberText (k, x)) /\
  jsonBytes x <= sum_bytes (memberText (k, x)).
Proof.
  unfold memberText, jsonBytes. cbn [fst snd].
  destruct (stringify x) as [t|] eqn:E.
  - split.
    + constructor; [|constructor]. unfold quote. cbn. lia.
    + rewrite sum_bytes_cons.
      rewrite byteLength_app
        by (apply starts_ascii_no_low, starts_ascii_app; cbn; lia).
      rewrite byteLength_app
        by (apply starts_ascii_no_low, (stringify_starts x), E).
      pose proof (byteLength_nonneg (quote k)).
      pose proof (byteLength_nonneg (js ":")).
      change (sum_bytes []) with 0. lia.
  - split; [constructor|reflexivity].
Qed.

Lemma sum_bytes_app (a b : list jsstring) :
  sum_bytes (a ++ b) = sum_bytes a + sum_bytes b.
Proof.
  induction a as [|p a IH]; cbn [app]; [reflexivity|].
  rewrite !sum_bytes_cons, IH. lia.
Qed.

Lemma stringify_obj_ge (props : list (jsstring * value)) :
  sumOf (fun p => jsonBytes (snd p)) props + 2 <= jsonBytes (Obj props).
Proof.
  unfold jsonBytes at 2. rewrite stringify_Obj.
  rewrite byteLength_bracket by lia.
  assert (Hparts : Forall starts_ascii (flat_map memberText props) /\
                   sumOf (fun p => jsonBytes (snd p)) props
                   <= sum_bytes (flat_map memberText props)).
  { induction props as [|[k x] props [IH1 IH2]]; cbn [flat_map].
    - split; [constructor|reflexivity].
    - destruct (memberText_bytes k x) as [M1 M2].
      rewrite sum_bytes_app, sumOf_cons. cbn [snd].
      split; [apply Forall_app; split; assumption|lia]. }
  destruct Hparts as [H1 H2].
  pose proof (byteLength_join_ge (js ",") _ ltac:(cbn; lia) H1). lia.
Qed.

Lemma sumOf_nonneg {A : Type} (f : A -> Z) (l : list A) :
  (forall x, 0 <= f x) -> 0 <= sumOf f l.
Proof.
  intros Hf. induction l as [|x l IH]; [reflexivity|].
  rewrite sumOf_cons. pose proof (Hf x). lia.
Qed.

Lemma lookup_sum (f : value -> Z) (k : jsstring) (props : list (jsstring * value))
      (x : value) :
  (forall v, 0 <= f v) -> lookup k props = Some x ->
  f x <= sumOf (fun p => f (snd p)) props.
Proof.
  intros Hf. induction props as [|[k' x'] props IH]; cbn [lookup]; [discriminate|].
  rewrite sumOf_cons. cbn [snd].
  pose proof (sumOf_nonneg (fun p => f (snd p)) props (fun p => Hf (snd p))).
  destruct (jsstring_eqb k k').
  - intros [= ->]. lia.
  - intros Hk. specialize (IH Hk). pose proof (Hf x'). lia.
Qed.

Lemma lookup_sum2 (f : value -> Z) (k1 k2 : jsstring)
      (props : list (jsstring * value)) (x1 x2 : value) :
  (forall v, 0 <= f v) -> k1 <> k2 ->
  lookup k1 props = Some x1 -> lookup k2 props = Some x2 ->
  f x1 + f x2 <= sumOf (fun p => f (snd p)) props.
Proof.
  intros Hf Hne. induction props as [|[k' x'] props IH]; cbn [lookup]; [discriminate|].
  rewrite sumOf_cons. cbn [snd].
  destruct (jsstring_eqb k1 k') eqn:E1; destruct (jsstring_eqb k2 k') eqn:E2.
  - apply jsstring_eqb_eq in E1, E2. congruence.
  - intros [= ->] H2. pose proof (lookup_sum f k2 props x2 Hf H2). lia.
  - intros H1 [= ->]. pose proof (lookup_sum f k1 props x1 Hf H1). lia.
  - intros H1 H2. specialize (IH H1 H2). pose proof (Hf x'). lia.
Qed.

Lemma textBytes_leaf (t : option jsstring) :
  textBytes (Node t None) = byteLength (node_value (Node t None)).
Proof. unfold textBytes. cbn [preorder map]. rewrite sum_bytes_cons. cbn. lia. Qed.

Lemma textBytes_container (t : option jsstring) (ds : list RichDocument) :
  textBytes (Node t (Some ds)) =
  byteLength (node_value (Node t (Some ds))) + sumOf textBytes ds.
Proof.
  unfold textBytes at 1. cbn [preorder map]. rewrite sum_bytes_cons. f_equal.
  induction ds as [|d ds IH]; [reflexivity|].
  cbn [flat_map]. rewrite map_app, sum_bytes_app, IH, sumOf_cons. reflexivity.
Qed.

Lemma byteLength_leafText (d : RichDocument) :
  byteLength (leafText d) <= textBytes d.
Proof. apply byteLength_concat_le. Qed.

Lemma jsonBytes_Str (s : jsstring) : byteLength s + 2 <= jsonBytes (Str s).
Proof. unfold jsonBytes. cbn [stringify]. apply quote_ge. Qed.

Lemma node_value_bytes (t : option jsstring) (c : option (list RichDocument))
      (props : list (jsstring * value)) :
  lookup (js "value") props = option_map Str t ->
  byteLength (node_value (Node t c))
  <= match lookup (js "value") props with
     | Some x => jsonBytes x
     | None => 0
     end.
Proof.
  intros ->. destruct t as [s|]; cbn [option_map node_value].
  - pose proof (jsonBytes_Str s). lia.
  - reflexivity.
Qed.

(** The serialization of a rich document is longer than its leaf values
    together. *)
Lemma jsonBytes_ge_textBytes (d : RichDocument) :
  forall v, represents v d -> textBytes d + 2 <= jsonBytes v.
Proof.
  induction d as [t|t ds IH] using RichDocument_ind'; intros v Hrep;
    inversion Hrep as [props t' Hval Hcont|props t' elems ds' Hval Hcont Hkids];
    subst; pose proof (stringify_obj_ge props) as Hobj;
    pose proof (node_value_bytes t None props Hval) as Hleaf.
  - rewrite textBytes_leaf.
    destruct (lookup (js "value") props) as [x|] eqn:Ex.
    + pose proof (lookup_sum jsonBytes _ _ _ jsonBytes_nonneg Ex). lia.
    + pose proof (sumOf_nonneg (fun p => jsonBytes (snd p)) props
                    (fun p => jsonBytes_nonneg (snd p))). lia.
  - rewrite textBytes_container.
    assert (Hkids' : sumOf textBytes ds <= jsonBytes (Arr elems)).
    { pose proof (stringify_arr_ge elems) as Harr.
      assert (sumOf textBytes ds <= sumOf jsonBytes elems); [|lia].
      clear Harr Hcont Hrep. induction Hkids as [|e d elems ds He _ IHk].
      - reflexivity.
      - inversion IH as [|? ? Hd Hds]; subst. rewrite !sumOf_cons.
        specialize (IHk Hds). specialize (Hd e He).
        pose proof (jsonBytes_nonneg e). lia. }
    change (node_value (Node t (Some ds))) with (node_value (Node t None)).
    destruct (lookup (js "value") props) as [x|] eqn:Ex.
    + assert (Hne : js "value" <> js "content") by discriminate.
      pose proof (lookup_sum2 jsonBytes _ _ _ _ _ jsonBytes_nonneg Hne Ex Hcont).
      lia.
    + pose proof (lookup_sum jsonBytes _ _ _ jsonBytes_nonneg Hcont). lia.
Qed.

Lemma stringify_represents (v : value) (d : RichDocument) :
  represents v d -> exists json, stringify v = Some json.
Proof. intros H. inversion H; subst; rewrite stringify_Obj; eauto. Qed.

(** What [analyzeContentOverhead] returns on a rich document. *)
Lemma analyzeContentOverhead_rich (v : value) (d : RichDocument) :
  represents v d ->
  exists json r,
    stringify v = Some json /\
    analyzeContentOverhead v = Ok r /\
    totalSize r = byteLength json /\
    contentSize r = byteLength (leafText d) /\
    overheadSize r = byteLength json - byteLength (leafText d).
Proof.
  intros H. destruct (stringify_represents v d H) as [json Hjson].
  pose proof (extract_represents v d H) as Hext.
  assert (Hobj : exists props, v = Obj props) by (inversion H; eauto).
  destruct Hobj as [props ->].
  unfold analyzeContentOverhead. cbn [truthy negb].
  rewrite Hjson, Hext. cbn [bind].
  eexists json, _. split; [reflexivity|]. split; [reflexivity|].
  cbn [totalSize contentSize overheadSize]. repeat split.
Qed.

(** C8: for every rich document the overhead, the byte length of the JSON
    serialization minus the byte length of the extracted text, is never
    negative. *)
Theorem overheadSize_nonnegative (v : value) (d : RichDocument) :
  represents v d ->
  exists json text r,
    stringify v = Some json /\
    extractPlainTextFromRichText v = Ok text /\
    analyzeContentOverhead v = Ok r /\
    overheadSize r = byteLength json - byteLength text /\
    0 <= overheadSize r.
Proof.
  intros H.
  destruct (analyzeContentOverhead_rich v d H) as (json & r & Hj & Hr & _ & _ & Ho).
  exists json, (leafText d), r.
  repeat split; try assumption; [now apply extract_represents|].
  pose proof (jsonBytes_ge_textBytes d v H) as Hge.
  unfold jsonBytes in Hge. rewrite Hj in Hge.
  pose proof (byteLength_leafText d). lia.
Qed.

Lemma overheadSize_nonnegative_witness :
  exists json text r,
    stringify (Obj [(js "nodeType", Str (js "text"));
                    (js "value", Str [0xD83D%N; 0xDE00%N; 34%N])]) = Some json /\
    extractPlainTextFromRichText
      (Obj [(js "nodeType", Str (js "text"));
            (js "value", Str [0xD83D%N; 0xDE00%N; 34%N])]) = Ok text /\
    analyzeContentOverhead
      (Obj [(js "nodeType", Str (js "text"));
            (js "value", Str [0xD83D%N; 0xDE00%N; 34%N])]) = Ok r /\
    overheadSize r = byteLength json - byteLength text /\
    0 <= overheadSize r.
Proof.
  apply (overheadSize_nonnegative _ (Node (Some [0xD83D%N; 0xDE00%N; 34%N]) None)).
  apply (represents_leaf _ (Some [0xD83D%N; 0xDE00%N; 34%N])); reflexivity.
Defined.

(** ** The overhead analyzer and the size primitives *)

Lemma isEmptyValue_falsy (v : value) : isEmptyValue v = true -> truthy v = false.
Proof. destruct v as [| |b|n|[|u s]|elems|props]; simpl; congruence. Qed.

Lemma analyzeContentOverhead_Str (s : jsstring) :
  analyzeContentOverhead (Str s) =
  Ok {| totalSize := byteLength s; contentSize := byteLength s;
        overheadSize := 0; overheadPercentage := 0%Q |}.
Proof. destruct s; reflexivity. Qed.

(** C2: on an empty value the four fields of the result are zero; on a
    plain string [contentSize] equals [totalSize] and [overheadSize] is
    0; on a rich document [totalSize] is exactly [contentSize] plus
    [overheadSize]. *)
Theorem analyzeContentOverhead_invariant :
  (forall v, isEmptyValue v = true ->
     exists r, analyzeContentOverhead v = Ok r /\
               totalSize r = 0 /\ contentSize r = 0 /\ overheadSize r = 0 /\
               overheadPercentage r = 0%Q) /\
  (forall s,
     exists r, analyzeContentOverhead (Str s) = Ok r /\
               contentSize r = totalSize r /\ overheadSize r = 0) /\
  (forall v d, represents v d ->
     exists r, analyzeContentOverhead v = Ok r /\
               totalSize r = contentSize r + overheadSize r).
Proof.
  split; [|split].
  - intros v Hv. exists zeroOverhead.
    unfold analyzeContentOverhead. rewrite (isEmptyValue_falsy v Hv).
    repeat split.
  - intros s. rewrite analyzeContentOverhead_Str. eexists. repeat split.
  - intros v d H.
    destruct (analyzeContentOverhead_rich v d H)
      as (json & r & _ & Hr & Ht & Hc & Ho).
    exists r. split; [exact Hr|lia].
Qed.

Lemma analyzeContentOverhead_invariant_witness :
  exists r,
    analyzeContentOverhead
      (Obj [(js "content", Arr [Obj [(js "value", Str (js "a"))]])]) = Ok r /\
    totalSize r = contentSize r + overheadSize r.
Proof.
  apply (proj2 (proj2 analyzeContentOverhead_invariant) _
           (Node None (Some [Node (Some (js "a")) None]))).
  eapply (represents_container _ None); [reflexivity|reflexivity|].
  constructor; [|constructor].
  apply (represents_leaf _ (Some (js "a"))); reflexivity.
Defined.

Lemma getByteSize_Str (s : jsstring) : getByteSize (Str s) = byteLength s.
Proof. destruct s; reflexivity. Qed.

Lemma getCharacterCount_Str (s : jsstring) :
  getCharacterCount (Str s) = str_length s.
Proof. destruct s; reflexivity. Qed.

(** A string with a character of more than one byte takes more bytes
    than it has code units. *)
Lemma byteLength_gt_length (s : jsstring) :
  Exists (fun c => (1 < List.length (utf8_bytes c))%nat) (code_points s) ->
  str_length s < byteLength s.
Proof.
  induction s as [| h l rest Hh Hl IH | u rest Hu IH] using surrogate_ind.
  - cbn [code_points]. intros H. inversion H.
  - intros _. rewrite byteLength_pair by assumption.
    pose proof (byteLength_ge_length rest). rewrite !str_length_cons. lia.
  - rewrite code_points_unit by exact Hu. intros H.
    rewrite byteLength_unit by exact Hu. rewrite str_length_cons.
    pose proof (byteLength_ge_length rest).
    apply Exists_cons in H as [H|H].
    + assert (2 <= unit_bytes u); [|lia].
      unfold unit_bytes. destruct (is_high u || is_low u)%bool; lia.
    + specialize (IH H). pose proof (unit_bytes_bounds u). lia.
Qed.

(** C5: [getByteSize] is 0 on an empty value and the number of bytes of
    the UTF-8 encoding on a string, [getCharacterCount] is the number of
    UTF-16 code units; on a string with a character of several bytes the
    first exceeds the second, and a string made of one character of three
    bytes has byte size 3 and character count 1. *)
Theorem byteSize_characterCount :
  (forall v, isEmptyValue v = true ->
             getByteSize v = 0 /\ getCharacterCount v = 0) /\
  (forall s, getByteSize (Str s) = Z.of_nat (List.length (utf8_encode s))) /\
  (forall s, getCharacterCount (Str s) = Z.of_nat (List.length s)) /\
  (forall s,
     Exists (fun c => (1 < List.length (utf8_bytes c))%nat) (code_points s) ->
     getCharacterCount (Str s) < getByteSize (Str s)) /\
  utf8_encode [0x20AC%N] = [0xE2%N; 0x82%N; 0xAC%N] /\
  getByteSize (Str [0x20AC%N]) = 3 /\
  getCharacterCount (Str [0x20AC%N]) = 1.
Proof.
  split; [|split; [|split; [|split]]].
  - intros v Hv. unfold getByteSize, getCharacterCount.
    rewrite (isEmptyValue_falsy v Hv). split; reflexivity.
  - intros s. apply getByteSize_Str.
  - intros s. apply getCharacterCount_Str.
  - intros s H. rewrite getByteSize_Str, getCharacterCount_Str.
    now apply byteLength_gt_length.
  - repeat split.
Qed.

Lemma byteSize_characterCount_witness :
  getCharacterCount (Str [104%N; 0xE9%N; 0xD83D%N; 0xDE00%N])
  < getByteSize (Str [104%N; 0xE9%N; 0xD83D%N; 0xDE00%N]).
Proof.
  apply (proj1 (proj2 (proj2 (proj2 byteSize_characterCount)))).
  apply Exists_cons_tl, Exists_cons_hd. cbn. lia.
Defined.

(** ** The share of the limit *)

Lemma threshold_warning :
  fmul (inject_Z twoMBInBytes) (round64 (8 # 10))
  = 3602879701896397 # 2147483648.
Proof. vm_compute. reflexivity. Qed.

Lemma threshold_caution :
  fmul (inject_Z twoMBInBytes) (round64 (6 # 10))
  = 5404319552844595 # 4294967296.
Proof. vm_compute. reflexivity. Qed.

Lemma usageBand_cases (n : Z) :
  usageBand n =
  if 1677722 <=? n then Warning
  else if 1258292 <=? n then Caution
  else Safe.
Proof.
  unfold usageBand. rewrite threshold_warning, threshold_caution.
  unfold gt, Qle_bool. cbn [Qnum Qden inject_Z].
  repeat match goal with
         | |- context [Z.leb ?a ?b] => destruct (Z.leb_spec a b)
         end; cbn [negb]; try reflexivity; lia.
Qed.

(** C1, as the code has it: with the limit at 2,097,152 bytes, a size
    strictly above 80% of the limit is in the warning band, one strictly
    above 60% and at most 80% in the caution band, one at most 60% in the
    safe band; so 1,800,000 and 1,900,000 bytes are in the warning band
    and 1,000,000 bytes in the safe band. *)
Theorem usageBand_classification :
  twoMBInBytes = 2097152 /\
  (forall n, usageBand n = Warning <-> 80 * twoMBInBytes < 100 * n) /\
  (forall n, usageBand n = Caution <->
             60 * twoMBInBytes < 100 * n <= 80 * twoMBInBytes) /\
  (forall n, usageBand n = Safe <-> 100 * n <= 60 * twoMBInBytes) /\
  usageBand 1800000 = Warning /\
  usageBand 1900000 = Warning /\
  usageBand 1000000 = Safe.
Proof.
  split; [reflexivity|].
  assert (H : forall n,
             (usageBand n = Warning <-> 80 * twoMBInBytes < 100 * n) /\
             (usageBand n = Caution <->
              60 * twoMBInBytes < 100 * n <= 80 * twoMBInBytes) /\
             (usageBand n = Safe <-> 100 * n <= 60 * twoMBInBytes)).
  { intros n. rewrite usageBand_cases. unfold twoMBInBytes.
    destruct (Z.leb_spec 1677722 n); [|destruct (Z.leb_spec 1258292 n)];
      repeat split; intros; try discriminate; try reflexivity; lia. }
  split; [apply H|]. split; [apply H|]. split; [apply H|].
  rewrite !usageBand_cases. repeat split.
Qed.

(** C1 as stated fails: 1,800,000 bytes is 85.8% of the limit and falls in
    the warning band, not in the caution band. *)
Lemma usageBand_1800000_is_warning :
  usageBand 1800000 = Warning /\ usageBand 1800000 <> Caution /\
  80 * twoMBInBytes < 100 * 1800000.
Proof.
  rewrite usageBand_cases. split; [reflexivity|].
  split; [discriminate|reflexivity].
Qed.

(** ** Sorting *)

Section SortFacts.
Context {A : Type} (compareFn : A -> A -> Z).

Lemma insert_perm (x : A) (l : list A) :
  Permutation (insert compareFn x l) (x :: l).
Proof.
  induction l as [|y tl IH]; cbn [insert]; [reflexivity|].
  destruct (compareFn x y <=? 0); [reflexivity|].
  rewrite IH. apply perm_swap.
Qed.

Lemma sort_perm (l : list A) : Permutation (sort compareFn l) l.
Proof.
  induction l as [|x tl IH]; cbn [sort]; [reflexivity|].
  rewrite insert_perm. now rewrite IH.
Qed.

(** Elements the comparator does not tell apart keep their order. *)
Lemma filter_insert (P : A -> bool) (x : A) (l : list A) :
  (forall a b, P a = true -> P b = true -> compareFn a b <= 0) ->
  filter P (insert compareFn x l) = filter P (x :: l).
Proof.
  intros HP. induction l as [|y tl IH]; cbn [insert]; [reflexivity|].
  destruct (Z.leb_spec (compareFn x y) 0) as [Hle|Hgt]; [reflexivity|].
  cbn [filter] in *. rewrite IH.
  destruct (P x) eqn:Ex; [|reflexivity].
  destruct (P y) eqn:Ey; [|reflexivity].
  specialize (HP x y Ex Ey). lia.
Qed.

Lemma filter_sort (P : A -> bool) (l : list A) :
  (forall a b, P a = true -> P b = true -> compareFn a b <= 0) ->
  filter P (sort compareFn l) = filter P l.
Proof.
  intros HP. induction l as [|x tl IH]; cbn [sort]; [reflexivity|].
  rewrite filter_insert by exact HP. cbn [filter]. now rewrite IH.
Qed.

Hypothesis compare_total : forall a b, 0 < compareFn a b -> compareFn b a <= 0.
Hypothesis compare_trans :
  forall a b c, compareFn a b <= 0 -> compareFn b c <= 0 -> compareFn a c <= 0.

Lemma insert_sorted (x : A) (l : list A) :
  StronglySorted (fun a b => compareFn a b <= 0) l ->
  StronglySorted (fun a b => compareFn a b <= 0) (insert compareFn x l).
Proof.
  induction 1 as [|y tl Hs IH Hy]; cbn [insert].
  - constructor; constructor.
  - destruct (Z.leb_spec (compareFn x y) 0) as [Hle|Hgt].
    + constructor; [constructor; assumption|].
      constructor; [exact Hle|].
      eapply Forall_impl; [|exact Hy]. intros z Hz. now apply (compare_trans x y z).
    + constructor; [exact IH|].
      apply (Permutation_Forall (Permutation_sym (insert_perm x tl))).
      constructor; [now apply compare_total|exact Hy].
Qed.

Lemma sort_sorted (l : list A) :
  StronglySorted (fun a b => compareFn a b <= 0) (sort compareFn l).
Proof.
  induction l as [|x tl IH]; cbn [sort]; [constructor|].
  now apply insert_sorted.
Qed.
End SortFacts.

Lemma lex_compare_antisym (a b : list N) :
  lex_compare b a = CompOpp (lex_compare a b).
Proof.
  revert b. induction a as [|x a IH]; intros [|y b]; cbn [lex_compare];
    try reflexivity.
  rewrite (N.compare_antisym x y).
  destruct (N.compare x y); cbn [CompOpp]; [apply IH|reflexivity|reflexivity].
Qed.

Lemma lex_compare_trans (a b c : list N) :
  lex_compare a b <> Gt -> lex_compare b c <> Gt -> lex_compare a c <> Gt.
Proof.
  revert b c. induction a as [|x a IH]; intros [|y b] [|z c];
    cbn [lex_compare]; try congruence.
  destruct (N.compare_spec x y), (N.compare_spec y z), (N.compare_spec x z);
    try congruence; try lia; subst; try lia.
  apply IH.
Qed.

Lemma sign_of_le (c : comparison) : sign_of c <= 0 <-> c <> Gt.
Proof. destruct c; cbn; split; intros; try congruence; lia. Qed.

Lemma sign_of_gt (c : comparison) : 0 < sign_of c <-> c = Gt.
Proof. destruct c; cbn; split; intros; try congruence; lia. Qed.

Lemma root_collation_total (a b : jsstring) :
  0 < root_collation a b -> root_collation b a <= 0.
Proof.
  unfold root_collation. rewrite sign_of_gt, sign_of_le.
  rewrite (lex_compare_antisym (collation_key a)). intros ->. discriminate.
Qed.

Lemma root_collation_trans (a b c : jsstring) :
  root_collation a b <= 0 -> root_collation b c <= 0 -> root_collation a c <= 0.
Proof.
  unfold root_collation. rewrite !sign_of_le. apply lex_compare_trans.
Qed.

(** ** The loop over the locales *)

Lemma sumOf_app {A : Type} (f : A -> Z) (a b : list A) :
  sumOf f (a ++ b) = sumOf f a + sumOf f b.
Proof.
  induction a as [|x a IH]; cbn [app]; [reflexivity|].
  rewrite !sumOf_cons, IH. lia.
Qed.

Lemma FieldValue_truthy (v : value) :
  FieldValue v -> truthy v = negb (isEmptyValue v).
Proof.
  intros [| |s|v' d H]; try reflexivity.
  - destruct s; reflexivity.
  - inversion H; reflexivity.
Qed.

Lemma FieldValue_overhead (v : value) :
  FieldValue v -> exists r, analyzeContentOverhead v = Ok r.
Proof.
  intros [| |s|v' d H].
  - now exists zeroOverhead.
  - now exists zeroOverhead.
  - rewrite analyzeContentOverhead_Str. eauto.
  - destruct (analyzeContentOverhead_rich v' d H) as (json & r & _ & Hr & _).
    eauto.
Qed.

Lemma analyzeLocale_inv (contentField : value) (locale : Locale)
      (acc t : Totals.t) :
  analyzeLocale contentField locale acc = Ok t ->
  totalsAgree acc -> Forall (measures contentField) (Totals.results acc) ->
  totalsAgree t /\ Forall (measures contentField) (Totals.results t) /\
  map localeCode (Totals.results t)
  = map localeCode (Totals.results acc) ++ [code locale].
Proof.
  unfold analyzeLocale. intros Hrun (H1 & H2 & H3 & H4 & H5) Hall.
  destruct (get contentField (code locale)) as [content| |] eqn:Eget;
    cbn [bind] in Hrun; try discriminate.
  destruct (analyzeContentOverhead content) as [ov| |] eqn:Eov;
    cbn [bind] in Hrun; try discriminate.
  assert (Hm : measures contentField
                 {| localeCode := code locale; localeName := name locale;
                    sizeInBytes := getByteSize content;
                    characterCount := getCharacterCount content;
                    overheadAnalysis := ov; hasContent := truthy content |}).
  { exists content. cbn. repeat split; assumption. }
  destruct (truthy content) eqn:Et; injection Hrun as <-;
    unfold totalsAgree; cbn [Totals.results Totals.totalSize
      Totals.totalCharacters Totals.totalContentSize Totals.totalOverheadSize
      Totals.localesWithContent];
    rewrite filter_app, map_app; cbn [filter map hasContent];
    rewrite ?app_nil_r, ?sumOf_app, ?length_app; cbn [sumOf fold_right List.length];
    (split; [|split; [apply Forall_app; split; [exact Hall|now constructor]
                     |reflexivity]]);
    cbn [sizeInBytes characterCount overheadAnalysis] in *;
    repeat split; lia.
Qed.

Lemma forEach_analyzeLocale (contentField : value) (locales : list Locale) :
  forall acc,
    (forall l, In l locales -> fieldValueAt contentField (code l)) ->
    totalsAgree acc -> Forall (measures contentField) (Totals.results acc) ->
    exists t,
      forEach (analyzeLocale contentField) locales acc = Ok t /\
      totalsAgree t /\ Forall (measures contentField) (Totals.results t) /\
      map localeCode (Totals.results t)
      = map localeCode (Totals.results acc) ++ map code locales.
Proof.
  induction locales as [|l locales IH]; intros acc Hval Hagree Hall.
  - exists acc. cbn [forEach map]. rewrite app_nil_r.
    split; [reflexivity|]. split; [exact Hagree|]. split; [exact Hall|reflexivity].
  - assert (Hstep : exists t1, analyzeLocale contentField l acc = Ok t1).
    { destruct (Hval l (or_introl eq_refl)) as (content & Hget & Hfv).
      destruct (FieldValue_overhead content Hfv) as [ov Hov].
      unfold analyzeLocale. rewrite Hget. cbn [bind]. rewrite Hov. cbn [bind].
      destruct (truthy content); eauto. }
    destruct Hstep as [t1 Ht1].
    destruct (analyzeLocale_inv _ _ _ _ Ht1 Hagree Hall) as (A1 & A2 & A3).
    destruct (IH t1 (fun l' H => Hval l' (or_intror H)) A1 A2)
      as (t & Ht & B1 & B2 & B3).
    exists t. cbn [forEach]. rewrite Ht1. fold (@forEach Locale Totals.t).
    split; [exact Ht|]. split; [exact B1|]. split; [exact B2|].
    rewrite B3, A3, <- app_assoc. reflexivity.
Qed.

Lemma totalsAgree_init : totalsAgree Totals.init.
Proof. repeat split. Qed.

Lemma analyzeLocales_run (localeCompare : jsstring -> jsstring -> Z)
      (contentField : value) (locales : list Locale) :
  (forall l, In l locales -> fieldValueAt contentField (code l)) ->
  exists t,
    analyzeLocales localeCompare contentField locales = Ok t /\
    totalsAgree t /\ Forall (measures contentField) (Totals.results t) /\
    map localeCode (Totals.results t)
    = map code (sortLocales localeCompare locales).
Proof.
  intros Hval. unfold analyzeLocales.
  destruct (forEach_analyzeLocale contentField
              (sortLocales localeCompare locales) Totals.init)
    as (t & Ht & H1 & H2 & H3).
  - intros l Hl. apply Hval.
    eapply Permutation_in; [apply sort_perm|exact Hl].
  - apply totalsAgree_init.
  - constructor.
  - exists t. split; [exact Ht|]. split; [exact H1|]. split; [exact H2|exact H3].
Qed.

Lemma measures_content (contentField : value) (locales : list Locale)
      (results : list LocaleResult) :
  (forall l, In l locales -> fieldValueAt contentField (code l)) ->
  Forall (measures contentField) results ->
  incl (map localeCode results) (map code locales) ->
  Forall (fun r => exists content,
              get contentField (localeCode r) = Ok content /\
              hasContent r = negb (isEmptyValue content) /\
              sizeInBytes r = getByteSize content) results.
Proof.
  intros Hval Hall Hincl. apply Forall_forall. intros r Hr.
  rewrite Forall_forall in Hall.
  destruct (Hall r Hr) as (content & Hget & Hhas & Hsize & _).
  assert (Hin : In (localeCode r) (map code locales))
    by (apply Hincl, in_map, Hr).
  apply in_map_iff in Hin as (l & Hcode & Hl).
  destruct (Hval l Hl) as (content' & Hget' & Hfv).
  rewrite Hcode, Hget in Hget'. injection Hget' as <-.
  exists content. split; [exact Hget|]. split; [|exact Hsize].
  rewrite Hhas. now apply FieldValue_truthy.
Qed.

Lemma analyzeLocale_names (contentField : value) (locale : Locale)
      (acc t : Totals.t) :
  analyzeLocale contentField locale acc = Ok t ->
  map localeName (Totals.results t)
  = map localeName (Totals.results acc) ++ [name locale].
Proof.
  unfold analyzeLocale.
  destruct (get contentField (code locale)) as [content| |];
    cbn [bind]; try discriminate.
  destruct (analyzeContentOverhead content) as [ov| |];
    cbn [bind]; try discriminate.
  destruct (truthy content); intros [= <-]; cbn [Totals.results];
    rewrite map_app; reflexivity.
Qed.

Lemma forEach_analyzeLocale_names (contentField : value)
      (locales : list Locale) :
  forall acc t,
    forEach (analyzeLocale contentField) locales acc = Ok t ->
    map localeName (Totals.results t)
    = map localeName (Totals.results acc) ++ map name locales.
Proof.
  induction locales as [|l locales IH]; intros acc t Hrun; cbn [forEach] in Hrun.
  - injection Hrun as <-. cbn [map]. now rewrite app_nil_r.
  - destruct (analyzeLocale contentField l acc) as [t1| |] eqn:E1;
      try discriminate.
    rewrite (IH _ _ Hrun), (analyzeLocale_names _ _ _ _ E1), <- app_assoc.
    reflexivity.
Qed.

(** C6: the loop gives one result to every locale, in the order in which
    it processes them, each with the measures of the value the field has
    for that locale; it adds to its running totals only for the locales
    whose value is present and not empty (an object with no text
    counts), so that each total is the exact sum over the results with
    content, and the count is their number. *)
Theorem analyzeLocales_totals (localeCompare : jsstring -> jsstring -> Z)
        (contentField : value) (locales : list Locale) :
  (forall l, In l locales -> fieldValueAt contentField (code l)) ->
  exists t,
    analyzeLocales localeCompare contentField locales = Ok t /\
    Forall (fun r => exists content,
                get contentField (localeCode r) = Ok content /\
                hasContent r = negb (isEmptyValue content) /\
                sizeInBytes r = getByteSize content) (Totals.results t) /\
    Totals.totalSize t
    = sumOf sizeInBytes (filter hasContent (Totals.results t)) /\
    Totals.totalCharacters t
    = sumOf characterCount (filter hasContent (Totals.results t)) /\
    Totals.totalContentSize t
    = sumOf (fun r => contentSize (overheadAnalysis r))
        (filter hasContent (Totals.results t)) /\
    Totals.totalOverheadSize t
    = sumOf (fun r => overheadSize (overheadAnalysis r))
        (filter hasContent (Totals.results t)) /\
    Totals.localesWithContent t
    = Z.of_nat (List.length (filter hasContent (Totals.results t))) /\
    map localeCode (Totals.results t)
    = map code (sortLocales localeCompare locales) /\
    map localeName (Totals.results t)
    = map name (sortLocales localeCompare locales) /\
    Permutation (map localeCode (Totals.results t)) (map code locales) /\
    List.length (Totals.results t) = List.length locales /\
    Forall (measures contentField) (Totals.results t).
Proof.
  intros Hval.
  destruct (analyzeLocales_run localeCompare contentField locales Hval)
    as (t & Ht & (H1 & H2 & H3 & H4 & H5) & Hall & Hcodes).
  exists t. split; [exact Ht|]. split.
  { apply (measures_content contentField locales); try assumption.
    rewrite Hcodes. intros k Hk. apply in_map_iff in Hk as (l & <- & Hl).
    apply in_map. eapply Permutation_in; [apply sort_perm|exact Hl]. }
  split; [exact H1|]. split; [exact H2|]. split; [exact H3|].
  split; [exact H4|]. split; [exact H5|]. split; [exact Hcodes|].
  split; [exact (forEach_analyzeLocale_names _ _ _ _ Ht)|].
  split; [rewrite Hcodes; apply Permutation_map, sort_perm|].
  split; [|exact Hall].
  rewrite <- (length_map localeCode), Hcodes, length_map.
  apply Permutation_length, sort_perm.
Qed.

(** C7, as the code has it: whatever the order of the list of locales,
    the locales are processed and their results emitted in ascending
    order of their code under [localeCompare], the collation of the
    host. *)
Theorem results_sorted_by_localeCompare
        (localeCompare : jsstring -> jsstring -> Z)
        (contentField : value) (locales : list Locale) :
  (forall a b, 0 < localeCompare a b -> localeCompare b a <= 0) ->
  (forall a b c, localeCompare a b <= 0 -> localeCompare b c <= 0 ->
                 localeCompare a c <= 0) ->
  (forall l, In l locales -> fieldValueAt contentField (code l)) ->
  exists t,
    analyzeLocales localeCompare contentField locales = Ok t /\
    map localeCode (Totals.results t)
    = map code (sortLocales localeCompare locales) /\
    Permutation (map localeCode (Totals.results t)) (map code locales) /\
    StronglySorted (fun a b => localeCompare a b <= 0)
      (map localeCode (Totals.results t)).
Proof.
  intros Htotal Htrans Hval.
  destruct (analyzeLocales_run localeCompare contentField locales Hval)
    as (t & Ht & _ & _ & Hcodes).
  exists t. split; [exact Ht|]. split; [exact Hcodes|]. rewrite Hcodes.
  split; [apply Permutation_map, sort_perm|].
  unfold sortLocales.
  pose proof (sort_sorted (fun a b : Locale => localeCompare (code a) (code b))
                (fun a b => Htotal (code a) (code b))
                (fun a b c => Htrans (code a) (code b) (code c)) locales) as Hs.
  induction Hs as [|x l Hs IH Hx]; cbn [map]; constructor.
  - exact IH.
  - apply Forall_map. exact Hx.
Qed.

Lemma sample_values :
  forall l, In l sampleLocales -> fieldValueAt sampleField (code l).
Proof.
  intros l [<-|[<-|[<-|[<-|[<-|[]]]]]]; eexists; (split; [reflexivity|]);
    try constructor.
  apply (FieldValue_rich _ (Node None (Some []))).
  eapply (represents_container _ None); [reflexivity|reflexivity|constructor].
Qed.

(** The loop on the sample: five results, in the order [de], [en-US],
    [fr], [zh-Hans], [zh-HK]; two of them have content, 36 and 5 bytes. *)
Lemma analyzeLocales_sample :
  exists t,
    analyzeLocales root_collation sampleField sampleLocales = Ok t /\
    map localeCode (Totals.results t)
    = [js "de"; js "en-US"; js "fr"; js "zh-Hans"; js "zh-HK"] /\
    map hasContent (Totals.results t) = [true; true; false; false; false] /\
    map sizeInBytes (Totals.results t) = [36; 5; 0; 0; 0] /\
    Totals.totalSize t = 41 /\
    Totals.totalCharacters t = 41 /\
    Totals.totalContentSize t = 5 /\
    Totals.totalOverheadSize t = 36 /\
    Totals.localesWithContent t = 2.
Proof. eexists. split; [vm_compute; reflexivity|]. repeat split. Qed.

Lemma analyzeLocales_totals_witness :
  exists t,
    analyzeLocales root_collation sampleField sampleLocales = Ok t /\
    Forall (fun r => exists content,
                get sampleField (localeCode r) = Ok content /\
                hasContent r = negb (isEmptyValue content) /\
                sizeInBytes r = getByteSize content) (Totals.results t) /\
    Totals.totalSize t
    = sumOf sizeInBytes (filter hasContent (Totals.results t)) /\
    Totals.totalCharacters t
    = sumOf characterCount (filter hasContent (Totals.results t)) /\
    Totals.totalContentSize t
    = sumOf (fun r => contentSize (overheadAnalysis r))
        (filter hasContent (Totals.results t)) /\
    Totals.totalOverheadSize t
    = sumOf (fun r => overheadSize (overheadAnalysis r))
        (filter hasContent (Totals.results t)) /\
    Totals.localesWithContent t
    = Z.of_nat (List.length (filter hasContent (Totals.results t))) /\
    map localeCode (Totals.results t)
    = map code (sortLocales root_collation sampleLocales) /\
    map localeName (Totals.results t)
    = map name (sortLocales root_collation sampleLocales) /\
    Permutation (map localeCode (Totals.results t)) (map code sampleLocales) /\
    List.length (Totals.results t) = List.length sampleLocales /\
    Forall (measures sampleField) (Totals.results t).
Proof.
  exact (analyzeLocales_totals root_collation sampleField sampleLocales
           sample_values).
Defined.

Lemma results_sorted_by_localeCompare_witness :
  exists t,
    analyzeLocales root_collation sampleField sampleLocales = Ok t /\
    map localeCode (Totals.results t)
    = map code (sortLocales root_collation sampleLocales) /\
    Permutation (map localeCode (Totals.results t)) (map code sampleLocales) /\
    StronglySorted (fun a b => root_collation a b <= 0)
      (map localeCode (Totals.results t)).
Proof.
  exact (results_sorted_by_localeCompare root_collation sampleField
           sampleLocales root_collation_total root_collation_trans
           sample_values).
Defined.

(** C7 as stated fails: the host's collation compares letters without
    their case first, so [zh-Hans] is processed before [zh-HK], although
    [zh-HK] comes first in the order of the code units. *)
Lemma results_not_in_code_unit_order :
  exists t,
    analyzeLocales root_collation sampleField sampleLocales = Ok t /\
    map localeCode (Totals.results t)
    = [js "de"; js "en-US"; js "fr"; js "zh-Hans"; js "zh-HK"] /\
    code_unit_compare (js "zh-HK") (js "zh-Hans") = -1 /\
    root_collation (js "zh-Hans") (js "zh-HK") = -1.
Proof.
  eexists. split; [vm_compute; reflexivity|]. repeat split.
Qed.

(** ** The breakdown by field *)

Lemma stringify_defined (v : value) :
  v <> Undefined -> exists json, stringify v = Some json.
Proof. destruct v; cbn [stringify]; intros H; try congruence; eauto. Qed.

Lemma jsonByteLength_defined (v : value) :
  v <> Undefined -> jsonByteLength v = Ok (jsonBytes v).
Proof.
  intros H. destruct (stringify_defined v H) as [json Hj].
  unfold jsonByteLength, jsonBytes. now rewrite Hj.
Qed.

Lemma lookup_app_fresh (k : jsstring) (v : value)
      (pre tl : list (jsstring * value)) :
  ~ In k (map fst pre) -> lookup k (pre ++ (k, v) :: tl) = Some v.
Proof.
  induction pre as [|[k' v'] pre IH]; cbn [app lookup map fst In]; intros H.
  - now rewrite jsstring_eqb_refl.
  - destruct (jsstring_eqb k k') eqn:E.
    + apply jsstring_eqb_eq in E. subst. tauto.
    + apply IH. tauto.
Qed.

Lemma set_prop_fresh {V : Type} (k : jsstring) (v : V)
      (props : list (jsstring * V)) :
  ~ In k (map fst props) -> set_prop k v props = props ++ [(k, v)].
Proof.
  induction props as [|[k' v'] props IH]; cbn [set_prop app map fst In];
    intros H; [reflexivity|].
  destruct (jsstring_eqb k k') eqn:E.
  - apply jsstring_eqb_eq in E. subst. tauto.
  - rewrite IH by tauto. reflexivity.
Qed.

(** The loop that fills [fieldSizes] visits the fields in the order of the
    entry and gives each its size. *)
Lemma forEach_fieldSizes (props : list (jsstring * value)) :
  forall pre tl,
    props = pre ++ tl ->
    NoDup (map fst props) ->
    (forall k v, In (k, v) props -> v <> Undefined) ->
    forEach (fun fieldId fieldSizes =>
               field <- get (Obj props) fieldId ;;
               fieldTotal <- jsonByteLength field ;;
               Ok (set_prop fieldId fieldTotal fieldSizes))
            (map fst tl) (map fieldSize pre)
    = Ok (map fieldSize props).
Proof.
  intros pre tl. revert pre.
  induction tl as [|[k v] tl IH]; intros pre Hsplit Hnodup Hdef.
  - rewrite app_nil_r in Hsplit. subst. reflexivity.
  - assert (Hfresh : ~ In k (map fst pre)).
    { subst props. rewrite map_app in Hnodup. cbn [map fst] in Hnodup.
      apply NoDup_remove_2 in Hnodup. intros Hin. apply Hnodup.
      apply in_or_app. now left. }
    cbn [map fst forEach get]. subst props.
    rewrite lookup_app_fresh by exact Hfresh. cbn [bind].
    rewrite jsonByteLength_defined
      by (apply (Hdef k), in_or_app; right; now left).
    cbn [bind]. rewrite set_prop_fresh
      by (rewrite map_map; cbn [fieldSize fst]; exact Hfresh).
    change (map fieldSize pre ++ [(k, jsonBytes v)])
      with (map fieldSize pre ++ map fieldSize [(k, v)]).
    rewrite <- map_app.
    apply (IH (pre ++ [(k, v)])); try assumption.
    now rewrite <- app_assoc.
Qed.

(** C9, as the code has it: the breakdown lists every field of the entry
    with the byte length of its serialization over all locales, sorted by
    decreasing size; fields of equal size keep the order they have in the
    entry. *)
Theorem fieldBreakdown_sorted (props : list (jsstring * value)) :
  NoDup (map fst props) ->
  (forall k v, In (k, v) props -> v <> Undefined) ->
  exists sortedFields,
    fieldBreakdown (Obj props) = Ok sortedFields /\
    Permutation sortedFields (map fieldSize props) /\
    StronglySorted (fun a b => snd b <= snd a) sortedFields /\
    (forall n, filter (fun p => snd p =? n) sortedFields
               = filter (fun p => snd p =? n) (map fieldSize props)).
Proof.
  intros Hnodup Hdef. unfold fieldBreakdown. cbn [keys bind].
  change (@nil (jsstring * Z)) with (map fieldSize []).
  rewrite (forEach_fieldSizes props [] props eq_refl Hnodup Hdef). cbn [bind].
  eexists. split; [reflexivity|]. split; [apply sort_perm|]. split.
  - pose proof (sort_sorted (fun a b : jsstring * Z => snd b - snd a)
                  ltac:(intros; lia) ltac:(intros; lia) (map fieldSize props))
      as Hs.
    eapply StronglySorted_ind with (P := StronglySorted _); [..|exact Hs].
    + constructor.
    + intros a l _ IH Ha. constructor; [exact IH|].
      eapply Forall_impl; [|exact Ha]. cbn beta. intros; lia.
  - intros n. apply filter_sort. intros a b Ha Hb. lia.
Qed.

Lemma fieldBreakdown_sorted_witness :
  exists sortedFields,
    fieldBreakdown
      (Obj [(js "title", Obj [(js "en-US", Str (js "Hi"))]);
            (js "content", sampleField);
            (js "slug", Obj [(js "en-US", Str (js "hi"))])])
    = Ok sortedFields /\
    Permutation sortedFields
      (map fieldSize [(js "title", Obj [(js "en-US", Str (js "Hi"))]);
                      (js "content", sampleField);
                      (js "slug", Obj [(js "en-US", Str (js "hi"))])]) /\
    StronglySorted (fun a b => snd b <= snd a) sortedFields /\
    (forall n, filter (fun p => snd p =? n) sortedFields
               = filter (fun p => snd p =? n)
                   (map fieldSize
                      [(js "title", Obj [(js "en-US", Str (js "Hi"))]);
                       (js "content", sampleField);
                       (js "slug", Obj [(js "en-US", Str (js "hi"))])])).
Proof.
  apply fieldBreakdown_sorted.
  - repeat constructor; cbn [In map fst]; intros H;
      repeat (destruct H as [H|H]; [discriminate|]); exact H.
  - intros k v H. repeat (destruct H as [H|H]; [injection H as <- <-; discriminate|]).
    destruct H.
Defined.

(** C9 as stated fails: two fields of equal size stay in the order of the
    entry, here [b] before [a], not in the order of their ids. *)
Lemma fieldBreakdown_tie_keeps_entry_order :
  fieldBreakdown
    (Obj [(js "b", Obj [(js "en-US", Str (js "x"))]);
          (js "a", Obj [(js "en-US", Str (js "y"))])])
  = Ok [(js "b", 13); (js "a", 13)] /\
  code_unit_compare (js "a") (js "b") = -1.
Proof. split; vm_compute; reflexivity. Qed.

(** ** The missing field *)

(** C10: the test of lines 224-226 reads [entry.fields[contentFieldId]]
    through the prototype chain.  When the configured id is not in the
    field map of the entry and is the name of a member of
    [Object.prototype] ([constructor], [toString], ...), the read is
    answered by that member (a function, or the prototype itself for
    [__proto__]), which is truthy: the run does not take the error of
    lines 226-230, whatever the locales and the entry are. *)
Theorem inherited_field_id_is_not_reported
        (localeCompare : jsstring -> jsstring -> Z)
        (configured : option jsstring) (locales : list Locale)
        (entry : value) (fields : list (jsstring * value)) :
  get entry (js "fields") = Ok (Obj fields) ->
  lookup (contentFieldIdOf configured) fields = None ->
  existsb (jsstring_eqb (contentFieldIdOf configured)) objectPrototypeNames
  = true ->
  get (Obj fields) (contentFieldIdOf configured)
  = Inherited (contentFieldIdOf configured) /\
  analyzeEntryContentSizes localeCompare configured locales entry
  = ReadsInherited (contentFieldIdOf configured) /\
  (forall contentFieldId,
      analyzeEntryContentSizes localeCompare configured locales entry
      <> FieldNotFound contentFieldId).
Proof.
  intros Hfields Hmissing Hname.
  assert (Hget : get (Obj fields) (contentFieldIdOf configured)
                 = Inherited (contentFieldIdOf configured)).
  { cbn [get inherits]. rewrite Hmissing, Hname. reflexivity. }
  assert (H : analyzeEntryContentSizes localeCompare configured locales entry
              = ReadsInherited (contentFieldIdOf configured)).
  { unfold analyzeEntryContentSizes, analysis.
    rewrite Hfields. cbn [bind keys]. rewrite Hget. reflexivity. }
  rewrite H. split; [exact Hget|]. split; [reflexivity|discriminate].
Qed.

Lemma inherited_field_id_is_not_reported_witness :
  get (Obj [(js "content", sampleField)]) (js "constructor")
  = Inherited (js "constructor") /\
  analyzeEntryContentSizes root_collation (Some (js "constructor"))
    sampleLocales
    (Obj [(js "sys", Obj [(js "id", Str (js "e1"))]);
          (js "fields", Obj [(js "content", sampleField)])])
  = ReadsInherited (js "constructor") /\
  (forall contentFieldId,
      analyzeEntryContentSizes root_collation (Some (js "constructor"))
        sampleLocales
        (Obj [(js "sys", Obj [(js "id", Str (js "e1"))]);
              (js "fields", Obj [(js "content", sampleField)])])
      <> FieldNotFound contentFieldId).
Proof.
  apply (inherited_field_id_is_not_reported root_collation
           (Some (js "constructor")) sampleLocales _
           [(js "content", sampleField)]); reflexivity.
Defined.

(** * Further properties *)

(** ** The size primitives on every value *)

Lemma stringify_object (v : value) :
  truthy v = true -> typeof v = "object"%string ->
  exists json, stringify v = Some json.
Proof.
  destruct v as [| |b|n|s|elems|props]; cbn [typeof truthy]; try discriminate;
    intros _ _; [rewrite stringify_Arr|rewrite stringify_Obj]; eauto.
Qed.

Lemma getCharacterCount_bounds (v : value) :
  0 <= getCharacterCount v <= getByteSize v.
Proof.
  unfold getCharacterCount, getByteSize.
  destruct (truthy v); cbn [negb]; [|lia].
  destruct v as [| |b|n|s|elems|props]; try lia.
  - pose proof (byteLength_ge_length s). unfold str_length in *. lia.
  - destruct (stringify (Arr elems)) as [json|]; [|lia].
    pose proof (byteLength_ge_length json). unfold str_length in *. lia.
  - destruct (stringify (Obj props)) as [json|]; [|lia].
    pose proof (byteLength_ge_length json). unfold str_length in *. lia.
Qed.

(** A value never has more characters than bytes, whatever it is: a
    string, an object measured through its serialization, or a value that
    is not measured at all. *)
Theorem characterCount_le_byteSize (v : value) :
  0 <= getCharacterCount v <= getByteSize v.
Proof. exact (getCharacterCount_bounds v). Qed.

Lemma overhead_sizes (v : value) (r : OverheadResult) :
  analyzeContentOverhead v = Ok r ->
  totalSize r = getByteSize v /\
  totalSize r = contentSize r + overheadSize r /\
  0 <= contentSize r.
Proof.
  unfold analyzeContentOverhead, getByteSize.
  destruct v as [| |b|n|s|elems|props]; cbn [truthy negb].
  - intros [= <-]. cbn [zeroOverhead totalSize contentSize overheadSize]. lia.
  - intros [= <-]. cbn [zeroOverhead totalSize contentSize overheadSize]. lia.
  - destruct b; intros [= <-];
      cbn [negb zeroOverhead totalSize contentSize overheadSize]; lia.
  - destruct (negb (n =? 0)); intros [= <-];
      cbn [negb zeroOverhead totalSize contentSize overheadSize]; lia.
  - destruct s as [|u s]; cbn [negb]; intros [= <-];
      cbn [zeroOverhead totalSize contentSize overheadSize]; [lia|].
    pose proof (byteLength_nonneg (u :: s)). lia.
  - destruct (stringify (Arr elems)) as [json|]; [|discriminate].
    destruct (extractPlainTextFromRichText (Arr elems)) as [text| |];
      cbn [bind]; try discriminate.
    intros [= <-]. cbn [totalSize contentSize overheadSize].
    pose proof (byteLength_nonneg text). lia.
  - destruct (stringify (Obj props)) as [json|]; [|discriminate].
    destruct (extractPlainTextFromRichText (Obj props)) as [text| |];
      cbn [bind]; try discriminate.
    intros [= <-]. cbn [totalSize contentSize overheadSize].
    pose proof (byteLength_nonneg text). lia.
Qed.

(** Whenever [analyzeContentOverhead] returns, its [totalSize] is the
    size [getByteSize] gives for the same value, the content size is not
    negative, and the three sizes balance. *)
Theorem analyzeContentOverhead_agrees (v : value) (r : OverheadResult) :
  analyzeContentOverhead v = Ok r ->
  totalSize r = getByteSize v /\
  totalSize r = contentSize r + overheadSize r /\
  0 <= contentSize r.
Proof. exact (overhead_sizes v r). Qed.

Lemma analyzeContentOverhead_agrees_witness :
  totalSize {| totalSize := 14; contentSize := 0; overheadSize := 14;
               overheadPercentage := 100 |}
  = getByteSize (Obj [(js "content", Arr [])]) /\
  totalSize {| totalSize := 14; contentSize := 0; overheadSize := 14;
               overheadPercentage := 100 |}
  = contentSize {| totalSize := 14; contentSize := 0; overheadSize := 14;
                   overheadPercentage := 100 |}
    + overheadSize {| totalSize := 14; contentSize := 0; overheadSize := 14;
                      overheadPercentage := 100 |} /\
  0 <= contentSize {| totalSize := 14; contentSize := 0; overheadSize := 14;
                      overheadPercentage := 100 |}.
Proof.
  apply (analyzeContentOverhead_agrees (Obj [(js "content", Arr [])])).
  vm_compute. reflexivity.
Defined.

(** ** The values on which the extractor returns *)

Lemma value_ind' (P : value -> Prop) :
  P Undefined -> P Null -> (forall b, P (Bool b)) -> (forall n, P (Num n)) ->
  (forall s, P (Str s)) ->
  (forall elems, Forall P elems -> P (Arr elems)) ->
  (forall props, Forall (fun p => P (snd p)) props -> P (Obj props)) ->
  forall v, P v.
Proof.
  intros HU HN HB HNum HS HA HO. fix IH 1.
  intros [| |b|n|s|elems|props];
    [exact HU|exact HN|apply HB|apply HNum|apply HS| |].
  - apply HA. induction elems as [|e elems IHe]; constructor; [apply IH|exact IHe].
  - apply HO. induction props as [|[k x] props IHp]; constructor;
      [apply IH|exact IHp].
Qed.

Lemma lookup_In (k : jsstring) (props : list (jsstring * value)) (x : value) :
  lookup k props = Some x -> In (k, x) props.
Proof.
  induction props as [|[k' x'] props IH]; cbn [lookup]; [discriminate|].
  destruct (jsstring_eqb k k') eqn:E.
  - intros [= ->]. apply jsstring_eqb_eq in E. subst. now left.
  - intros H. right. now apply IH.
Qed.

Lemma forEach_total {A S : Type} (f : A -> S -> exn S) (l : list A) :
  Forall (fun x => forall s, exists s', f x s = Ok s') l ->
  forall s, exists s', forEach f l s = Ok s'.
Proof.
  induction 1 as [|x l Hx _ IH]; intros s; cbn [forEach]; [eauto|].
  destruct (Hx s) as [s1 ->]. apply IH.
Qed.

(** [String(v)] returns on the values that have a conversion. *)
Lemma toString_returns (v : value) :
  convertible v = true -> exists s, toString v = Ok s.
Proof.
  induction v as [| |b|n|s|elems IH|props IH] using value_ind';
    intros Hc; try (cbn [toString]; eauto; fail).
  - cbn [toString convertible] in *.
    match goal with
    | |- exists s, bind ?m _ = Ok s =>
        enough (Hparts : exists parts, m = Ok parts)
          by (destruct Hparts as [parts ->]; cbn [bind]; eauto)
    end.
    revert Hc. induction IH as [|e elems He _ IHe]; cbn [forallb]; intros Hc;
      [eauto|].
    apply andb_prop in Hc as [Hce Hcs].
    destruct (IHe Hcs) as [parts ->].
    destruct (He Hce) as [part Hpart].
    destruct e; try rewrite Hpart; cbn [bind]; eauto.
  - cbn [toString convertible] in *.
    destruct (lookup (js "toString") props); [discriminate|eauto].
Qed.

(** An object with a [toString] property of its own has no conversion. *)
Lemma toString_throws (props : list (jsstring * value)) (x : value) :
  lookup (js "toString") props = Some x ->
  toString (Obj props) = Throw TypeError.
Proof. intros H. cbn [toString]. now rewrite H. Qed.

Lemma traverse_total (v : value) :
  (notNullish v = true -> noNullChild v = true -> convertibleValues v = true ->
   forall acc, exists out, traverse v acc = Ok out) /\
  (forall elems, v = Arr elems ->
     Forall (fun e => notNullish e = true -> noNullChild e = true ->
                      convertibleValues e = true ->
                      forall acc, exists out, traverse e acc = Ok out) elems).
Proof.
  induction v as [| |b|n|s|elems IH|props IH] using value_ind';
    (split; [|try discriminate]); try (intros _ _ _ acc; cbn; eauto; fail);
    try discriminate.
  - intros elems' [= <-]. eapply Forall_impl; [|exact IH].
    intros e [He _]. exact He.
  - intros _ Hsafe Hconv acc. rewrite traverse_unfold.
    rewrite !get_Obj by reflexivity. cbn [bind].
    cbn [convertibleValues] in Hconv. apply andb_prop in Hconv as [Hv Hkidsv].
    assert (Hpt : exists pt,
               (if truthy (propertyOr (js "value") props)
                then text <- toString (propertyOr (js "value") props) ;;
                     Ok (acc ++ text)
                else Ok acc) = Ok pt).
    { unfold propertyOr.
      destruct (lookup (js "value") props) as [x|]; [|cbn; eauto].
      destruct (truthy x); [|eauto].
      destruct (toString_returns x Hv) as [t ->]. cbn [bind]. eauto. }
    destruct Hpt as [pt ->]. cbn [bind]. unfold propertyOr.
    destruct (lookup (js "content") props) as [c|] eqn:Ec; [|cbn; eauto].
    destruct c as [| |b|n|s|elems|props']; cbn [truthy isArray andb];
      rewrite ?andb_false_r; eauto.
    apply lookup_In in Ec.
    apply forEach_total.
    rewrite Forall_forall in IH. destruct (IH _ Ec) as [_ Hkids].
    specialize (Hkids elems eq_refl).
    cbn [noNullChild] in Hsafe. rewrite forallb_forall in Hsafe.
    specialize (Hsafe _ Ec). cbn beta iota in Hsafe.
    rewrite jsstring_eqb_refl in Hsafe. rewrite forallb_forall in Hsafe.
    rewrite forallb_forall in Hkidsv.
    specialize (Hkidsv _ Ec). cbn beta iota in Hkidsv.
    rewrite jsstring_eqb_refl in Hkidsv. rewrite forallb_forall in Hkidsv.
    rewrite Forall_forall in Hkids |- *. intros e He.
    specialize (Hsafe e He). specialize (Hkidsv e He).
    apply Hkids; [exact He| | |exact Hkidsv].
    + destruct e; cbn in *; congruence.
    + destruct e; cbn [notNullish] in *; try discriminate; exact Hsafe.
Qed.

Lemma extract_returns (v : value) :
  extractable v = true ->
  exists text, extractPlainTextFromRichText v = Ok text.
Proof.
  intros Hsafe. apply andb_prop in Hsafe as [Hsafe Hconv].
  unfold extractPlainTextFromRichText.
  destruct (negb (truthy v) || negb (String.eqb (typeof v) "object"))%bool
    eqn:E; [eauto|].
  apply (proj1 (traverse_total v)); [|exact Hsafe|exact Hconv].
  destruct v; cbn in *; congruence.
Qed.

(** A node whose [value] is an object with a [toString] property of its
    own makes the extractor throw: [plainText += node.value] has no
    conversion for it. *)
Lemma extract_throws (props vprops : list (jsstring * value)) (x : value) :
  lookup (js "value") props = Some (Obj vprops) ->
  lookup (js "toString") vprops = Some x ->
  extractPlainTextFromRichText (Obj props) = Throw TypeError.
Proof.
  intros Hvalue Hown.
  change (extractPlainTextFromRichText (Obj props))
    with (traverse (Obj props) []).
  rewrite traverse_unfold, (get_own _ _ _ Hvalue). cbn [bind truthy].
  rewrite (toString_throws _ _ Hown). reflexivity.
Qed.

(** On every value in which no array under [content] holds [null] or
    [undefined], and no [value] property of a visited node holds an
    object with a [toString] property of its own (directly or in an
    array), the extractor returns a string, whatever else the value
    holds: values that are not strings, [content] that is not an array,
    nodes with neither property.  On a node whose [value] is an object
    with a [toString] property of its own it throws. *)
Theorem extractPlainText_returns :
  (forall v, extractable v = true ->
             exists text, extractPlainTextFromRichText v = Ok text) /\
  (forall props vprops x,
      lookup (js "value") props = Some (Obj vprops) ->
      lookup (js "toString") vprops = Some x ->
      extractPlainTextFromRichText (Obj props) = Throw TypeError).
Proof. split; [exact extract_returns|exact extract_throws]. Qed.

Lemma extractPlainText_returns_witness :
  extractPlainTextFromRichText
    (Obj [(js "value", Arr [Num 42; Obj [(js "valueOf", Num 1)]]);
          (js "toString", Num 1);
          (js "content", Arr [Str (js "x"); Obj [(js "content", Bool true)];
                              Obj [(js "value", Str (js "!"))]])])
  = Ok (js "42,[object Object]!") /\
  (exists text,
      extractPlainTextFromRichText
        (Obj [(js "value", Arr [Num 42; Obj [(js "valueOf", Num 1)]]);
              (js "toString", Num 1);
              (js "content", Arr [Str (js "x"); Obj [(js "content", Bool true)];
                                  Obj [(js "value", Str (js "!"))]])])
      = Ok text) /\
  extractPlainTextFromRichText
    (Obj [(js "value", Obj [(js "toString", Num 1)])])
  = Throw TypeError.
Proof.
  split; [reflexivity|]. split.
  - apply (proj1 extractPlainText_returns). reflexivity.
  - apply (proj2 extractPlainText_returns _ [(js "toString", Num 1)] (Num 1));
      reflexivity.
Defined.

(** On the same values the overhead analyzer returns a result. *)
Lemma analyzeContentOverhead_returns (v : value) :
  extractable v = true -> exists r, analyzeContentOverhead v = Ok r.
Proof.
  intros Hsafe. unfold analyzeContentOverhead.
  destruct (truthy v) eqn:Et; cbn [negb]; [|eauto].
  destruct (extract_returns v Hsafe) as [text Htext].
  destruct v as [| |b|n|s|elems|props]; eauto.
  - rewrite stringify_Arr, Htext. cbn [bind]. eauto.
  - rewrite stringify_Obj, Htext. cbn [bind]. eauto.
Qed.

(** ** The loop over the locales on every run that returns *)

Lemma forEach_analyzeLocale_inv (contentField : value) (locales : list Locale) :
  forall acc t,
    forEach (analyzeLocale contentField) locales acc = Ok t ->
    totalsAgree acc -> Forall (measures contentField) (Totals.results acc) ->
    totalsAgree t /\ Forall (measures contentField) (Totals.results t) /\
    map localeCode (Totals.results t)
    = map localeCode (Totals.results acc) ++ map code locales.
Proof.
  induction locales as [|l locales IH]; intros acc t Hrun Hagree Hall.
  - cbn [forEach] in Hrun. injection Hrun as <-. cbn [map].
    rewrite app_nil_r. split; [exact Hagree|]. split; [exact Hall|reflexivity].
  - cbn [forEach] in Hrun.
    destruct (analyzeLocale contentField l acc) as [t1| |] eqn:E1;
      try discriminate.
    destruct (analyzeLocale_inv _ _ _ _ E1 Hagree Hall) as (A1 & A2 & A3).
    destruct (IH t1 t Hrun A1 A2) as (B1 & B2 & B3).
    split; [exact B1|]. split; [exact B2|].
    rewrite B3, A3, <- app_assoc. reflexivity.
Qed.

Lemma analyzeLocale_returns (contentField : value) (l : Locale) :
  (exists content, get contentField (code l) = Ok content /\
                   extractable content = true) ->
  forall acc, exists t, analyzeLocale contentField l acc = Ok t.
Proof.
  intros (content & Hget & Hsafe) acc.
  destruct (analyzeContentOverhead_returns content Hsafe) as [ov Hov].
  unfold analyzeLocale. rewrite Hget. cbn [bind]. rewrite Hov. cbn [bind].
  destruct (truthy content); eauto.
Qed.

Lemma measures_balance (contentField : value) (l : list LocaleResult) :
  Forall (measures contentField) l ->
  sumOf sizeInBytes l
  = sumOf (fun r => contentSize (overheadAnalysis r)) l
    + sumOf (fun r => overheadSize (overheadAnalysis r)) l /\
  0 <= sumOf characterCount l <= sumOf sizeInBytes l.
Proof.
  induction 1 as [|r l Hr _ IH]; [cbn; lia|].
  rewrite !sumOf_cons.
  destruct Hr as (content & _ & _ & Hsize & Hchars & Hov).
  destruct (overhead_sizes content _ Hov) as (Ht & Hbal & _).
  pose proof (getCharacterCount_bounds content). lia.
Qed.

Lemma Forall_filter {A : Type} (P : A -> Prop) (f : A -> bool) (l : list A) :
  Forall P l -> Forall P (filter f l).
Proof.
  rewrite !Forall_forall. intros H x Hx. apply filter_In in Hx. now apply H.
Qed.

Lemma filter_length_le {A : Type} (f : A -> bool) (l : list A) :
  (List.length (filter f l) <= List.length l)%nat.
Proof.
  induction l as [|x l IH]; cbn [filter List.length]; [lia|].
  destruct (f x); cbn [List.length]; lia.
Qed.

Lemma analyzeLocales_returns (localeCompare : jsstring -> jsstring -> Z)
      (contentField : value) (locales : list Locale) :
  (forall l, In l locales ->
             exists content, get contentField (code l) = Ok content /\
                             extractable content = true) ->
  exists t, analyzeLocales localeCompare contentField locales = Ok t.
Proof.
  intros Hval. unfold analyzeLocales. apply forEach_total.
  apply Forall_forall. intros l Hl. apply analyzeLocale_returns, Hval.
  eapply Permutation_in; [apply sort_perm|exact Hl].
Qed.

(** When the field has, for every locale, a value on which the extractor
    returns (no [null] under [content], no [value] that holds an object
    with a [toString] of its own), the loop returns with one result per
    locale, the total size is the content total plus the overhead total,
    the total of characters is at most the total size, and the count of
    locales with content is at most the number of locales.  The values
    need not be of the data model. *)
Theorem analyzeLocales_balance (localeCompare : jsstring -> jsstring -> Z)
        (contentField : value) (locales : list Locale) :
  (forall l, In l locales ->
             exists content, get contentField (code l) = Ok content /\
                             extractable content = true) ->
  exists t,
    analyzeLocales localeCompare contentField locales = Ok t /\
    List.length (Totals.results t) = List.length locales /\
    Totals.totalSize t = Totals.totalContentSize t + Totals.totalOverheadSize t /\
    0 <= Totals.totalCharacters t <= Totals.totalSize t /\
    0 <= Totals.localesWithContent t <= Z.of_nat (List.length locales).
Proof.
  intros Hval.
  destruct (analyzeLocales_returns localeCompare contentField locales Hval)
    as [t Ht].
  exists t. split; [exact Ht|]. unfold analyzeLocales in Ht.
  destruct (forEach_analyzeLocale_inv _ _ _ _ Ht totalsAgree_init
              (Forall_nil _)) as ((H1 & H2 & H3 & H4 & H5) & Hall & Hcodes).
  assert (Hlen : List.length (Totals.results t) = List.length locales).
  { rewrite <- (length_map localeCode), Hcodes. cbn [Totals.init Totals.results map app].
    rewrite length_map. apply Permutation_length, sort_perm. }
  split; [exact Hlen|].
  destruct (measures_balance contentField
              (filter hasContent (Totals.results t))
              (Forall_filter _ _ _ Hall)) as [Hbal Hchars].
  pose proof (filter_length_le hasContent (Totals.results t)).
  cbv zeta in H1, H2, H3, H4, H5. lia.
Qed.

Lemma analyzeLocales_balance_witness :
  exists t,
    analyzeLocales root_collation
      (Obj [(js "en-US", Num 7); (js "de", Obj [(js "value", Bool true)])])
      sampleLocales = Ok t /\
    List.length (Totals.results t) = List.length sampleLocales /\
    Totals.totalSize t = Totals.totalContentSize t + Totals.totalOverheadSize t /\
    0 <= Totals.totalCharacters t <= Totals.totalSize t /\
    0 <= Totals.localesWithContent t <= Z.of_nat (List.length sampleLocales).
Proof.
  apply analyzeLocales_balance.
  intros l [<-|[<-|[<-|[<-|[<-|[]]]]]]; eexists; split; reflexivity.
Defined.

(** ** Runs that end on an error *)

Lemma forEach_app {A S : Type} (f : A -> S -> exn S) (l1 l2 : list A) :
  forall s, forEach f (l1 ++ l2) s = (s' <- forEach f l1 s ;; forEach f l2 s').
Proof.
  induction l1 as [|x l1 IH]; intros s; cbn [app forEach bind]; [reflexivity|].
  destruct (f x s) as [s1|e|k]; [apply IH|reflexivity|reflexivity].
Qed.

Lemma keys_notNullish (v : value) :
  notNullish v = true -> exists ks, keys v = Ok ks.
Proof. destruct v; cbn; try discriminate; eauto. Qed.

Lemma truthy_notNullish (v : value) : truthy v = true -> notNullish v = true.
Proof. destruct v; cbn; congruence. Qed.

(** The loop stops at the first locale, in the sorted order, whose value
    makes the overhead analyzer throw.  The locales before it have been
    processed: each has its result (and the line the callback prints for
    it, lines 309-311).  The callback throws at that locale, whatever the
    totals are, the loop throws, and the run ends in the [catch]: the
    locales after it, the totals and the report are not reached. *)
Theorem malformed_locale_aborts (localeCompare : jsstring -> jsstring -> Z)
        (configured : option jsstring) (locales : list Locale)
        (entryProps fields : list (jsstring * value))
        (contentField content : value) (before after : list Locale)
        (l : Locale) (e : error) :
  lookup (js "fields") entryProps = Some (Obj fields) ->
  lookup (contentFieldIdOf configured) fields = Some contentField ->
  truthy contentField = true ->
  sortLocales localeCompare locales = before ++ l :: after ->
  (forall l', In l' before ->
              exists content', get contentField (code l') = Ok content' /\
                               extractable content' = true) ->
  get contentField (code l) = Ok content ->
  analyzeContentOverhead content = Throw e ->
  exists t,
    forEach (analyzeLocale contentField) before Totals.init = Ok t /\
    map localeCode (Totals.results t) = map code before /\
    (forall acc, analyzeLocale contentField l acc = Throw TypeError) /\
    analyzeLocales localeCompare contentField locales = Throw TypeError /\
    analyzeEntryContentSizes localeCompare configured locales (Obj entryProps)
    = ErrorOccurred TypeError.
Proof.
  intros Hfields Hfield Htruthy Hsplit Hbefore Hget Hbad.
  destruct (forEach_total (analyzeLocale contentField) before) with
    (s := Totals.init) as [t Ht].
  { apply Forall_forall. intros l' Hl'.
    apply analyzeLocale_returns, Hbefore, Hl'. }
  destruct (forEach_analyzeLocale_inv _ _ _ _ Ht totalsAgree_init
              (Forall_nil _)) as (_ & _ & Hcodes).
  assert (Hthrow : forall acc, analyzeLocale contentField l acc = Throw TypeError).
  { intros acc. unfold analyzeLocale. rewrite Hget. cbn [bind].
    rewrite Hbad. cbn [bind]. destruct e. reflexivity. }
  assert (Hloop : analyzeLocales localeCompare contentField locales
                  = Throw TypeError).
  { unfold analyzeLocales. rewrite Hsplit, forEach_app, Ht. cbn [bind forEach].
    rewrite Hthrow. reflexivity. }
  exists t. split; [exact Ht|]. split; [exact Hcodes|]. split; [exact Hthrow|].
  split; [exact Hloop|].
  unfold analyzeEntryContentSizes, analysis.
  rewrite (get_own _ _ _ Hfields). cbn [keys bind].
  rewrite (get_own _ _ _ Hfield). cbn [bind]. rewrite Htruthy. cbn [negb].
  destruct (keys_notNullish contentField (truthy_notNullish _ Htruthy))
    as [ks ->]. cbn [bind]. rewrite Hloop. reflexivity.
Qed.

Lemma malformed_locale_aborts_witness :
  exists t,
    forEach
      (analyzeLocale
         (Obj [(js "en-US", Str (js "hello"));
               (js "zh-HK", Obj [(js "content", Arr [Null])])]))
      [{| code := js "de"; name := js "German" |};
       {| code := js "en-US"; name := js "English (United States)" |};
       {| code := js "fr"; name := js "French" |};
       {| code := js "zh-Hans"; name := js "Chinese (Simplified)" |}]
      Totals.init = Ok t /\
    map localeCode (Totals.results t)
    = map code
        [{| code := js "de"; name := js "German" |};
         {| code := js "en-US"; name := js "English (United States)" |};
         {| code := js "fr"; name := js "French" |};
         {| code := js "zh-Hans"; name := js "Chinese (Simplified)" |}] /\
    (forall acc,
        analyzeLocale
          (Obj [(js "en-US", Str (js "hello"));
                (js "zh-HK", Obj [(js "content", Arr [Null])])])
          {| code := js "zh-HK"; name := js "Chinese (Hong Kong)" |} acc
        = Throw TypeError) /\
    analyzeLocales root_collation
      (Obj [(js "en-US", Str (js "hello"));
            (js "zh-HK", Obj [(js "content", Arr [Null])])])
      sampleLocales = Throw TypeError /\
    analyzeEntryContentSizes root_collation None sampleLocales
      (Obj [(js "fields",
             Obj [(js "content",
                   Obj [(js "en-US", Str (js "hello"));
                        (js "zh-HK", Obj [(js "content", Arr [Null])])])])])
    = ErrorOccurred TypeError.
Proof.
  apply (malformed_locale_aborts root_collation None sampleLocales
           [(js "fields",
             Obj [(js "content",
                   Obj [(js "en-US", Str (js "hello"));
                        (js "zh-HK", Obj [(js "content", Arr [Null])])])])]
           [(js "content",
             Obj [(js "en-US", Str (js "hello"));
                  (js "zh-HK", Obj [(js "content", Arr [Null])])])]
           _ (Obj [(js "content", Arr [Null])]) _ []
           {| code := js "zh-HK"; name := js "Chinese (Hong Kong)" |} TypeError);
    try reflexivity.
  intros l' [<-|[<-|[<-|[<-|[]]]]]; eexists; split; reflexivity.
Defined.

(** When the configured field id is not in the field map of the entry and
    is not the name of a member of [Object.prototype], the run ends on
    the error of lines 226-230, with its own message and exit status 1,
    and without a report. *)
Theorem absent_field_is_not_found
        (localeCompare : jsstring -> jsstring -> Z)
        (configured : option jsstring) (locales : list Locale)
        (entry : value) (fields : list (jsstring * value)) :
  get entry (js "fields") = Ok (Obj fields) ->
  lookup (contentFieldIdOf configured) fields = None ->
  existsb (jsstring_eqb (contentFieldIdOf configured)) objectPrototypeNames
  = false ->
  analyzeEntryContentSizes localeCompare configured locales entry
  = FieldNotFound (contentFieldIdOf configured) /\
  exitStatus (analyzeEntryContentSizes localeCompare configured locales entry)
  = Some 1 /\
  errorLine (analyzeEntryContentSizes localeCompare configured locales entry)
  = Some (notFoundMessage (contentFieldIdOf configured)) /\
  (forall r, analyzeEntryContentSizes localeCompare configured locales entry
             <> AnalysisComplete r) /\
  (forall e, analyzeEntryContentSizes localeCompare configured locales entry
             <> ErrorOccurred e).
Proof.
  intros Hfields Hmissing Hname.
  assert (H : analyzeEntryContentSizes localeCompare configured locales entry
              = FieldNotFound (contentFieldIdOf configured)).
  { unfold analyzeEntryContentSizes, analysis.
    rewrite Hfields. cbn [bind keys]. rewrite (get_Obj _ _ Hname).
    unfold propertyOr. rewrite Hmissing. reflexivity. }
  rewrite H. repeat split; discriminate.
Qed.

Lemma absent_field_is_not_found_witness :
  analyzeEntryContentSizes root_collation (Some (js "body")) sampleLocales
    (Obj [(js "sys", Obj [(js "id", Str (js "e1"))]);
          (js "fields", Obj [(js "content", sampleField)])])
  = FieldNotFound (js "body") /\
  exitStatus
    (analyzeEntryContentSizes root_collation (Some (js "body")) sampleLocales
       (Obj [(js "sys", Obj [(js "id", Str (js "e1"))]);
             (js "fields", Obj [(js "content", sampleField)])]))
  = Some 1 /\
  errorLine
    (analyzeEntryContentSizes root_collation (Some (js "body")) sampleLocales
       (Obj [(js "sys", Obj [(js "id", Str (js "e1"))]);
             (js "fields", Obj [(js "content", sampleField)])]))
  = Some (notFoundMessage (js "body")) /\
  (forall r,
      analyzeEntryContentSizes root_collation (Some (js "body")) sampleLocales
        (Obj [(js "sys", Obj [(js "id", Str (js "e1"))]);
              (js "fields", Obj [(js "content", sampleField)])])
      <> AnalysisComplete r) /\
  (forall e,
      analyzeEntryContentSizes root_collation (Some (js "body")) sampleLocales
        (Obj [(js "sys", Obj [(js "id", Str (js "e1"))]);
              (js "fields", Obj [(js "content", sampleField)])])
      <> ErrorOccurred e).
Proof.
  apply (absent_field_is_not_found root_collation (Some (js "body"))
           sampleLocales _ [(js "content", sampleField)]); reflexivity.
Defined.

(** A field that is present with a value that is not truthy ([null], the
    empty string, [false], 0) is reported as not found, like a missing
    one. *)
Theorem falsy_field_is_not_found (localeCompare : jsstring -> jsstring -> Z)
        (configured : option jsstring) (locales : list Locale)
        (entry : value) (fields : list (jsstring * value)) (v : value) :
  get entry (js "fields") = Ok (Obj fields) ->
  lookup (contentFieldIdOf configured) fields = Some v ->
  truthy v = false ->
  analyzeEntryContentSizes localeCompare configured locales entry
  = FieldNotFound (contentFieldIdOf configured).
Proof.
  intros Hfields Hfield Hfalsy. unfold analyzeEntryContentSizes, analysis.
  rewrite Hfields. cbn [bind keys]. rewrite (get_own _ _ _ Hfield).
  cbn [bind]. rewrite Hfalsy. reflexivity.
Qed.

Lemma falsy_field_is_not_found_witness :
  analyzeEntryContentSizes root_collation None sampleLocales
    (Obj [(js "fields", Obj [(js "content", Null)])])
  = FieldNotFound (js "content").
Proof.
  apply (falsy_field_is_not_found root_collation None sampleLocales _
           [(js "content", Null)] Null); reflexivity.
Defined.

(** An entry without a field map ([fields] absent or [null]), or an entry
    that is itself [null], ends the run in the [catch] and not on the
    missing-field error. *)
Theorem missing_field_map_is_caught (localeCompare : jsstring -> jsstring -> Z)
        (configured : option jsstring) (locales : list Locale) (entry : value) :
  notNullish entry = false \/
  (exists fields, get entry (js "fields") = Ok fields /\
                  notNullish fields = false) ->
  analyzeEntryContentSizes localeCompare configured locales entry
  = ErrorOccurred TypeError.
Proof.
  intros [Hentry|(fields & Hget & Hnull)];
    unfold analyzeEntryContentSizes, analysis.
  - destruct entry; try discriminate; reflexivity.
  - rewrite Hget. cbn [bind]. destruct fields; try discriminate; reflexivity.
Qed.

Lemma missing_field_map_is_caught_witness :
  analyzeEntryContentSizes root_collation None sampleLocales
    (Obj [(js "sys", Obj [(js "id", Str (js "e1"))])])
  = ErrorOccurred TypeError.
Proof.
  apply missing_field_map_is_caught. right. exists Undefined.
  split; reflexivity.
Defined.

(** ** The breakdown within the entry *)

Lemma sumOf_perm {A : Type} (f : A -> Z) (l l' : list A) :
  Permutation l l' -> sumOf f l = sumOf f l'.
Proof.
  induction 1 as [|x l l' _ IH|x y l|l l' l'' _ IH1 _ IH2];
    rewrite ?sumOf_cons; lia.
Qed.

Lemma sumOf_map {A B : Type} (f : B -> Z) (g : A -> B) (l : list A) :
  sumOf f (map g l) = sumOf (fun x => f (g x)) l.
Proof.
  induction l as [|x l IH]; [reflexivity|].
  cbn [map]. rewrite !sumOf_cons, IH. reflexivity.
Qed.

Lemma sumOf_member {A : Type} (f : A -> Z) (l : list A) (x : A) :
  (forall y, 0 <= f y) -> In x l -> f x <= sumOf f l.
Proof.
  intros Hf. induction l as [|y l IH]; [intros []|].
  rewrite sumOf_cons. pose proof (sumOf_nonneg f l Hf). pose proof (Hf y).
  intros [->|Hin]; [lia|]. specialize (IH Hin). lia.
Qed.

Lemma fieldBreakdown_run (fields : list (jsstring * value)) :
  NoDup (map fst fields) ->
  (forall k v, In (k, v) fields -> v <> Undefined) ->
  fieldBreakdown (Obj fields)
  = Ok (sort (fun a b => snd b - snd a) (map fieldSize fields)).
Proof.
  intros Hnodup Hdef. unfold fieldBreakdown. cbn [keys bind].
  change (@nil (jsstring * Z)) with (map fieldSize []).
  rewrite (forEach_fieldSizes fields [] fields eq_refl Hnodup Hdef).
  reflexivity.
Qed.

(** The sizes of the breakdown add up to less than the size of the whole
    entry, and each of them is below it: no field is above 100% of the
    entry, and the division by the entry size is never by zero. *)
Theorem fieldBreakdown_within_entry (entryProps fields : list (jsstring * value)) :
  lookup (js "fields") entryProps = Some (Obj fields) ->
  NoDup (map fst fields) ->
  (forall k v, In (k, v) fields -> v <> Undefined) ->
  exists sortedFields total,
    fieldBreakdown (Obj fields) = Ok sortedFields /\
    jsonByteLength (Obj entryProps) = Ok total /\
    sumOf snd sortedFields + 4 <= total /\
    Forall (fun p => 0 <= snd p < total) sortedFields.
Proof.
  intros Hfields Hnodup Hdef.
  exists (sort (fun a b => snd b - snd a) (map fieldSize fields)),
         (jsonBytes (Obj entryProps)).
  split; [now apply fieldBreakdown_run|].
  split; [apply jsonByteLength_defined; discriminate|].
  pose proof (stringify_obj_ge entryProps) as Hentry.
  pose proof (stringify_obj_ge fields) as Hmap.
  pose proof (lookup_sum jsonBytes _ _ _ jsonBytes_nonneg Hfields) as Hin.
  assert (Hsum : sumOf snd (sort (fun a b => snd b - snd a) (map fieldSize fields))
                 = sumOf (fun p => jsonBytes (snd p)) fields).
  { rewrite (sumOf_perm snd _ _ (sort_perm _ _)), sumOf_map. reflexivity. }
  split; [lia|].
  assert (Hpos : forall p : jsstring * Z,
             In p (sort (fun a b => snd b - snd a) (map fieldSize fields)) ->
             0 <= snd p).
  { intros p Hp. apply (Permutation_in _ (sort_perm _ _)) in Hp.
    apply in_map_iff in Hp as (q & <- & _). apply jsonBytes_nonneg. }
  apply Forall_forall. intros p Hp. split; [now apply Hpos|].
  assert (snd p <= sumOf snd (sort (fun a b => snd b - snd a)
                                (map fieldSize fields))); [|lia].
  clear Hsum. revert p Hp.
  induction (sort (fun a b => snd b - snd a) (map fieldSize fields))
    as [|q l IH]; intros p Hp; [destruct Hp|].
  rewrite sumOf_cons.
  assert (0 <= sumOf snd l).
  { clear IH Hp. induction l as [|y l IHl]; [reflexivity|].
    rewrite sumOf_cons.
    pose proof (Hpos y (or_intror (or_introl eq_refl))).
    assert (0 <= sumOf snd l); [|lia].
    apply IHl. intros z [->|Hz]; apply Hpos; [now left|right; now right]. }
  pose proof (Hpos q (or_introl eq_refl)).
  destruct Hp as [->|Hp]; [lia|].
  assert (snd p <= sumOf snd l); [|lia].
  apply IH; [|exact Hp]. intros z Hz. apply Hpos. now right.
Qed.

Lemma fieldBreakdown_within_entry_witness :
  exists sortedFields total,
    fieldBreakdown (Obj [(js "title", Obj [(js "en-US", Str (js "Hi"))]);
                         (js "content", sampleField)])
    = Ok sortedFields /\
    jsonByteLength
      (Obj [(js "sys", Obj [(js "id", Str (js "e1"))]);
            (js "fields", Obj [(js "title", Obj [(js "en-US", Str (js "Hi"))]);
                               (js "content", sampleField)])])
    = Ok total /\
    sumOf snd sortedFields + 4 <= total /\
    Forall (fun p => 0 <= snd p < total) sortedFields.
Proof.
  apply fieldBreakdown_within_entry.
  - reflexivity.
  - repeat constructor; cbn [In map fst]; intros H;
      repeat (destruct H as [H|H]; [discriminate|]); exact H.
  - intros k v H.
    repeat (destruct H as [H|H]; [injection H as <- <-; discriminate|]).
    destruct H.
Defined.

(** ** The largest and the smallest content *)

Section Pick.
Context {A : Type} (key : A -> Z).

Lemma fold_pick (others : list A) :
  forall (pre mid : list A) (m : A),
    Forall (fun x => key x < key m) pre ->
    Forall (fun x => key x <= key m) mid ->
    exists pre' post',
      pre ++ m :: mid ++ others
      = pre' ++ fold_left (fun m c => if key m <? key c then c else m) others m
             :: post' /\
      Forall (fun x =>
                key x < key (fold_left (fun m c => if key m <? key c then c else m)
                               others m)) pre' /\
      Forall (fun x =>
                key x <= key (fold_left (fun m c => if key m <? key c then c else m)
                                others m)) post'.
Proof.
  induction others as [|c others IH]; intros pre mid m Hpre Hmid.
  - exists pre, mid. cbn [fold_left]. rewrite app_nil_r. auto.
  - cbn [fold_left]. destruct (Z.ltb_spec (key m) (key c)) as [Hlt|Hge].
    + destruct (IH (pre ++ m :: mid) [] c) as (pre' & post' & Heq & H1 & H2).
      * apply Forall_app. split; [|constructor; [exact Hlt|]].
        -- eapply Forall_impl; [|exact Hpre]. cbn beta. intros; lia.
        -- eapply Forall_impl; [|exact Hmid]. cbn beta. intros; lia.
      * constructor.
      * exists pre', post'. split; [|split; assumption].
        rewrite <- Heq. cbn [app]. rewrite <- app_assoc. reflexivity.
    + destruct (IH pre (mid ++ [c]) m) as (pre' & post' & Heq & H1 & H2).
      * exact Hpre.
      * apply Forall_app. split; [exact Hmid|]. constructor; [exact Hge|constructor].
      * exists pre', post'. split; [|split; assumption].
        rewrite <- Heq. rewrite <- app_assoc. reflexivity.
Qed.
End Pick.

Lemma fold_left_ext {A B : Type} (f g : A -> B -> A) (l : list B) :
  (forall a b, f a b = g a b) -> forall a, fold_left f l a = fold_left g l a.
Proof.
  intros H. induction l as [|x l IH]; intros a; cbn [fold_left]; [reflexivity|].
  rewrite H. apply IH.
Qed.

(** The largest content is the first result of the greatest size, and the
    smallest the first of the least size: every result before it is
    strictly smaller (larger), every result after it at most (at least)
    as large.  There is none exactly when the list is empty. *)
Theorem largest_smallest_first (l : list LocaleResult) :
  (largestOf l = None <-> l = []) /\
  (smallestOf l = None <-> l = []) /\
  (forall r, largestOf l = Some r ->
     exists pre post,
       l = pre ++ r :: post /\
       Forall (fun x => sizeInBytes x < sizeInBytes r) pre /\
       Forall (fun x => sizeInBytes x <= sizeInBytes r) post) /\
  (forall r, smallestOf l = Some r ->
     exists pre post,
       l = pre ++ r :: post /\
       Forall (fun x => sizeInBytes r < sizeInBytes x) pre /\
       Forall (fun x => sizeInBytes r <= sizeInBytes x) post).
Proof.
  destruct l as [|first others].
  - repeat split; try discriminate; reflexivity.
  - split; [split; discriminate|]. split; [split; discriminate|]. split.
    + intros r [= <-].
      destruct (fold_pick sizeInBytes others [] [] first (Forall_nil _)
                  (Forall_nil _)) as (pre & post & Heq & H1 & H2).
      exists pre, post. cbn [app] in Heq. auto.
    + intros r [= <-].
      destruct (fold_pick (fun x => - sizeInBytes x) others [] [] first
                  (Forall_nil _) (Forall_nil _)) as (pre & post & Heq & H1 & H2).
      rewrite (fold_left_ext
                 (fun m c => if - sizeInBytes m <? - sizeInBytes c then c else m)
                 (fun min current =>
                    if sizeInBytes current <? sizeInBytes min then current else min))
        in Heq, H1, H2
        by (intros a b; destruct (Z.ltb_spec (- sizeInBytes a) (- sizeInBytes b)),
              (Z.ltb_spec (sizeInBytes b) (sizeInBytes a)); try reflexivity; lia).
      exists pre, post. cbn [app] in Heq. split; [exact Heq|]. split.
      * eapply Forall_impl; [|exact H1]. cbn beta. intros; lia.
      * eapply Forall_impl; [|exact H2]. cbn beta. intros; lia.
Qed.

(** ** Runs that reach the end *)

(** When the entry has a field map without [undefined] values, the
    configured field is there with a truthy value and has, for every
    locale, a value on which the extractor returns (no [null] under
    [content], no [value] that holds an object with a [toString] of its
    own), the run reaches the end: the
    report holds the result of the loop, the size of the serialized entry
    and its band, the breakdown, and the largest and smallest among the
    results with content only. *)
Theorem analysis_completes (localeCompare : jsstring -> jsstring -> Z)
        (configured : option jsstring) (locales : list Locale)
        (entryProps fields : list (jsstring * value)) (contentField : value) :
  lookup (js "fields") entryProps = Some (Obj fields) ->
  NoDup (map fst fields) ->
  (forall k v, In (k, v) fields -> v <> Undefined) ->
  lookup (contentFieldIdOf configured) fields = Some contentField ->
  truthy contentField = true ->
  (forall l, In l locales ->
             exists content, get contentField (code l) = Ok content /\
                             extractable content = true) ->
  exists r,
    analyzeEntryContentSizes localeCompare configured locales (Obj entryProps)
    = AnalysisComplete r /\
    analyzeLocales localeCompare contentField locales = Ok (perLocale r) /\
    jsonByteLength (Obj entryProps) = Ok (totalEntrySize r) /\
    usage r = usageBand (totalEntrySize r) /\
    fieldBreakdown (Obj fields) = Ok (sortedFields r) /\
    largest r = largestOf (filter hasContent (Totals.results (perLocale r))) /\
    smallest r = smallestOf (filter hasContent (Totals.results (perLocale r))).
Proof.
  intros Hfields Hnodup Hdef Hfield Htruthy Hval.
  destruct (analyzeLocales_returns localeCompare contentField locales Hval)
    as [t Ht].
  pose proof (fieldBreakdown_run fields Hnodup Hdef) as Hbreak.
  assert (Hsize : jsonByteLength (Obj entryProps)
                  = Ok (jsonBytes (Obj entryProps)))
    by (apply jsonByteLength_defined; discriminate).
  destruct (keys_notNullish contentField (truthy_notNullish _ Htruthy))
    as [ks Hks].
  eexists. split.
  - unfold analyzeEntryContentSizes, analysis.
    rewrite (get_own _ _ _ Hfields). cbn [keys bind].
    rewrite (get_own _ _ _ Hfield). cbn [bind]. rewrite Htruthy. cbn [negb].
    rewrite Hks. cbn [bind]. rewrite Ht. cbn [bind].
    rewrite Hsize. cbn [bind]. rewrite Hbreak. cbn [bind]. reflexivity.
  - cbn [perLocale totalEntrySize usage sortedFields largest smallest].
    repeat split; assumption.
Qed.

Lemma analysis_completes_witness :
  exists r,
    analyzeEntryContentSizes root_collation None sampleLocales
      (Obj [(js "sys", Obj [(js "id", Str (js "e1"))]);
            (js "fields", Obj [(js "content", sampleField)])])
    = AnalysisComplete r /\
    analyzeLocales root_collation sampleField sampleLocales = Ok (perLocale r) /\
    jsonByteLength
      (Obj [(js "sys", Obj [(js "id", Str (js "e1"))]);
            (js "fields", Obj [(js "content", sampleField)])])
    = Ok (totalEntrySize r) /\
    usage r = usageBand (totalEntrySize r) /\
    fieldBreakdown (Obj [(js "content", sampleField)]) = Ok (sortedFields r) /\
    largest r = largestOf (filter hasContent (Totals.results (perLocale r))) /\
    smallest r = smallestOf (filter hasContent (Totals.results (perLocale r))).
Proof.
  apply (analysis_completes root_collation None sampleLocales
           [(js "sys", Obj [(js "id", Str (js "e1"))]);
            (js "fields", Obj [(js "content", sampleField)])]
           [(js "content", sampleField)] sampleField).
  - reflexivity.
  - repeat constructor. intros [].
  - intros k v [H|[]]. injection H as <- <-. discriminate.
  - reflexivity.
  - reflexivity.
  - intros l [<-|[<-|[<-|[<-|[<-|[]]]]]]; eexists; split; reflexivity.
Defined.

(** ** The content total within the field *)

Lemma getByteSize_le_jsonBytes (v : value) : getByteSize v <= jsonBytes v.
Proof.
  pose proof (jsonBytes_nonneg v). unfold getByteSize.
  destruct (truthy v); cbn [negb]; [|lia].
  destruct v as [| |b|n|s|elems|props]; try lia.
  - pose proof (jsonBytes_Str s). lia.
  - unfold jsonBytes. destruct (stringify (Arr elems)); lia.
  - unfold jsonBytes. destruct (stringify (Obj props)); lia.
Qed.

Lemma sumOf_ext_in {A : Type} (f g : A -> Z) (l : list A) :
  (forall x, In x l -> f x = g x) -> sumOf f l = sumOf g l.
Proof.
  induction l as [|x l IH]; intros H; [reflexivity|].
  rewrite !sumOf_cons, (H x (or_introl eq_refl)), IH; [reflexivity|].
  intros y Hy. apply H. now right.
Qed.

Lemma propertyOr_skip (k k' : jsstring) (x : value)
      (props : list (jsstring * value)) :
  k <> k' -> propertyOr k ((k', x) :: props) = propertyOr k props.
Proof.
  intros H. unfold propertyOr. cbn [lookup].
  apply jsstring_eqb_neq in H. now rewrite H.
Qed.

(** Distinct keys read distinct properties: what they read together is at
    most what the object holds. *)
Lemma distinct_keys_sum (props : list (jsstring * value)) :
  forall ks, NoDup ks ->
    sumOf (fun k => getByteSize (propertyOr k props)) ks
    <= sumOf (fun p => jsonBytes (snd p)) props.
Proof.
  induction props as [|[k' x'] props IH]; intros ks Hnodup.
  - assert (H : sumOf (fun k => getByteSize (propertyOr k [])) ks = 0).
    { induction ks as [|k ks IHk]; [reflexivity|].
      rewrite sumOf_cons, IHk; [reflexivity|].
      now inversion Hnodup. }
    rewrite H. reflexivity.
  - rewrite sumOf_cons. cbn [snd].
    pose proof (jsonBytes_nonneg x') as Hx.
    destruct (in_dec (list_eq_dec N.eq_dec) k' ks) as [Hin|Hout].
    + apply in_split in Hin as (l1 & l2 & ->).
      pose proof (NoDup_remove_1 _ _ _ Hnodup) as Hnd.
      pose proof (NoDup_remove_2 _ _ _ Hnodup) as Hfresh.
      rewrite sumOf_app, sumOf_cons.
      assert (Hrest : sumOf (fun k => getByteSize (propertyOr k ((k', x') :: props))) l1
                      + sumOf (fun k => getByteSize (propertyOr k ((k', x') :: props))) l2
                      = sumOf (fun k => getByteSize (propertyOr k props)) (l1 ++ l2)).
      { rewrite sumOf_app. f_equal; apply sumOf_ext_in; intros k Hk;
          rewrite propertyOr_skip; try reflexivity;
          intros ->; apply Hfresh, in_or_app; auto. }
      specialize (IH (l1 ++ l2) Hnd).
      assert (Hhead : getByteSize (propertyOr k' ((k', x') :: props))
                      <= jsonBytes x').
      { unfold propertyOr. cbn [lookup]. rewrite jsstring_eqb_refl.
        apply getByteSize_le_jsonBytes. }
      lia.
    + specialize (IH ks Hnodup).
      rewrite (sumOf_ext_in _ (fun k => getByteSize (propertyOr k props))); [lia|].
      intros k Hk. rewrite propertyOr_skip; [reflexivity|].
      intros ->. contradiction.
Qed.

Lemma measures_sizes (props : list (jsstring * value)) (l : list LocaleResult) :
  Forall (measures (Obj props)) l ->
  sumOf sizeInBytes l
  = sumOf (fun k => getByteSize (propertyOr k props)) (map localeCode l).
Proof.
  induction 1 as [|r l Hr _ IH]; [reflexivity|].
  cbn [map]. rewrite !sumOf_cons, IH.
  destruct Hr as (content & Hget & _ & Hsize & _).
  apply get_Obj_Ok in Hget. subst content. rewrite Hsize. reflexivity.
Qed.

(** When the locale codes are distinct and the field is an object that
    has, for every locale, a value on which the extractor returns, the
    total size the loop reports (the sum of [sizeInBytes] over the
    locales with content) is below the size the breakdown gives for the
    field: it never exceeds the bytes of the serialized field less its
    two braces. *)
Theorem total_size_within_field (localeCompare : jsstring -> jsstring -> Z)
        (props : list (jsstring * value)) (locales : list Locale) :
  NoDup (map code locales) ->
  (forall l, In l locales ->
             exists content, get (Obj props) (code l) = Ok content /\
                             extractable content = true) ->
  exists t,
    analyzeLocales localeCompare (Obj props) locales = Ok t /\
    Totals.totalSize t
    = sumOf sizeInBytes (filter hasContent (Totals.results t)) /\
    Totals.totalSize t + 2 <= jsonBytes (Obj props).
Proof.
  intros Hnodup Hval.
  destruct (analyzeLocales_returns localeCompare (Obj props) locales Hval)
    as [t Ht].
  exists t. split; [exact Ht|].
  unfold analyzeLocales in Ht.
  destruct (forEach_analyzeLocale_inv _ _ _ _ Ht totalsAgree_init
              (Forall_nil _)) as ((H1 & _) & Hall & Hcodes).
  cbv zeta in H1. cbn [Totals.init Totals.results map app] in Hcodes.
  split; [exact H1|].
  assert (Hpos : forall r, In r (Totals.results t) -> 0 <= sizeInBytes r).
  { intros r Hr. rewrite Forall_forall in Hall.
    destruct (Hall r Hr) as (content & _ & _ & -> & _).
    pose proof (getCharacterCount_bounds content). lia. }
  assert (Hfilter : sumOf sizeInBytes (filter hasContent (Totals.results t))
                    <= sumOf sizeInBytes (Totals.results t)).
  { clear - Hpos. induction (Totals.results t) as [|x l IH]; [reflexivity|].
    cbn [filter]. pose proof (Hpos x (or_introl eq_refl)).
    assert (sumOf sizeInBytes (filter hasContent l) <= sumOf sizeInBytes l)
      by (apply IH; intros r Hr; apply Hpos; now right).
    destruct (hasContent x); rewrite ?sumOf_cons; lia. }
  rewrite (measures_sizes props _ Hall), Hcodes in Hfilter.
  assert (Hnd : NoDup (map code (sortLocales localeCompare locales))).
  { eapply Permutation_NoDup; [|exact Hnodup].
    apply Permutation_map, Permutation_sym, sort_perm. }
  pose proof (distinct_keys_sum props _ Hnd).
  pose proof (stringify_obj_ge props). lia.
Qed.

Lemma total_size_within_field_witness :
  exists t,
    analyzeLocales root_collation sampleField sampleLocales = Ok t /\
    Totals.totalSize t
    = sumOf sizeInBytes (filter hasContent (Totals.results t)) /\
    Totals.totalSize t + 2 <= jsonBytes sampleField.
Proof.
  apply (total_size_within_field root_collation).
  - repeat constructor; cbn [In map code]; intros H;
      repeat (destruct H as [H|H]; [discriminate|]); exact H.
  - intros l [<-|[<-|[<-|[<-|[<-|[]]]]]]; eexists; split; reflexivity.
Defined.

(** ** Rounded numbers

    A number between two integers below 2^53 stays between them when it
    is rounded to binary64, and when it is printed with one decimal. *)

Lemma round64_bounds (x : Q) (lo hi : Z) :
  0 <= lo -> hi < 2 ^ 53 ->
  (inject_Z lo <= x)%Q -> (x <= inject_Z hi)%Q ->
  (inject_Z lo <= round64 x)%Q /\ (round64 x <= inject_Z hi)%Q.
Proof.
  intros Hlo Hhi Hl Hu. destruct x as [p d].
  unfold Qle in Hl, Hu. cbn [Qnum Qden inject_Z] in Hl, Hu.
  unfold round64. cbn [Qnum Qden].
  destruct (Z.eqb_spec (Z.abs p) 0) as [Hz|Hnz].
  - unfold Qle. cbn. lia.
  - assert (Hp : 0 < p) by lia.
    rewrite (Z.abs_eq p) by lia. rewrite (Z.sgn_pos p) by lia.
    cbv zeta.
    set (q := Z.pos d) in *.
    set (k := Z.log2 p - Z.log2 q).
    set (E := if _ <? _ then k - 1 else k).
    set (shift := E - 52).
    assert (Hq : 0 < q) by (subst q; lia).
    assert (Hshift : shift <= 0).
    { pose proof (Z.log2_spec p Hp) as [Hp1 Hp2].
      pose proof (Z.log2_spec q Hq) as [Hq1 Hq2].
      pose proof (Z.log2_nonneg p). pose proof (Z.log2_nonneg q).
      assert (Hk : k <= 53).
      { subst k. destruct (Z.le_gt_cases (Z.log2 p) (Z.log2 q + 53)) as [|Hgt]; [lia|].
        exfalso.
        assert (2 ^ (Z.log2 q + 54) <= 2 ^ Z.log2 p)
          by (apply Z.pow_le_mono_r; lia).
        replace (Z.log2 q + 54) with (Z.succ (Z.log2 q) + 53) in * by lia.
        rewrite Z.pow_add_r in * by lia. nia. }
      subst shift E.
      destruct (Z.ltb_spec (p * 2 ^ Z.max 0 (- k)) (q * 2 ^ Z.max 0 k)) as [|Hge];
        [lia|].
      destruct (Z.eq_dec k 53) as [Hk53|]; [|lia]. exfalso.
      rewrite Hk53 in Hge.
      rewrite (Z.max_l 0 (- (53))), (Z.max_r 0 53), Z.pow_0_r in Hge by lia.
      assert (hi * q <= (2 ^ 53 - 1) * q)
        by (apply Z.mul_le_mono_nonneg_r; lia).
      lia. }
    clearbody shift. clear E k.
    rewrite (Z.max_r 0 (- shift)) by lia. rewrite (Z.max_l 0 shift) by lia.
    rewrite Z.pow_0_r, Z.mul_1_r, Z.mul_1_l.
    assert (HP : 0 < 2 ^ (- shift)) by (apply Z.pow_pos_nonneg; lia).
    set (P := 2 ^ (- shift)) in *.
    pose proof (Z.div_mod (p * P) q ltac:(lia)) as Hdm.
    pose proof (Z.mod_pos_bound (p * P) q Hq) as Hr.
    set (m0 := (p * P / q)%Z) in *. set (r := (p * P) mod q) in *.
    set (m := if 2 * r <? q then m0 else if q <? 2 * r then m0 + 1
              else if Z.even m0 then m0 else m0 + 1).
    assert (Hm : lo * P <= m <= hi * P).
    { assert (lo * P <= m0) by nia.
      assert (m0 <= hi * P) by nia.
      assert (0 < r -> m0 + 1 <= hi * P) by nia.
      subst m. destruct (Z.ltb_spec (2 * r) q); [lia|].
      destruct (Z.ltb_spec q (2 * r)); [lia|].
      destruct (Z.even m0); lia. }
    clearbody m.
    assert (Hval : (Qred (inject_Z m * 2 ^ shift) == inject_Z m / inject_Z P)%Q).
    { rewrite Qred_correct. unfold Qdiv. apply Qmult_comp; [reflexivity|].
      replace shift with (- (- shift)) at 1 by lia.
      rewrite Qpower_opp. subst P. rewrite Zpower_Qpower by lia. reflexivity. }
    rewrite Hval.
    assert (HPq : (0 < inject_Z P)%Q) by (unfold Qlt; cbn; lia).
    split.
    + apply Qle_shift_div_l; [exact HPq|].
      rewrite <- inject_Z_mult, <- Zle_Qle. lia.
    + apply Qle_shift_div_r; [exact HPq|].
      rewrite <- inject_Z_mult, <- Zle_Qle. lia.
Qed.

Lemma toFixed1_bounds (x : Q) (lo hi : Z) :
  0 <= lo ->
  (inject_Z lo <= x)%Q -> (x <= inject_Z hi)%Q ->
  10 * lo <= toFixed1 x <= 10 * hi.
Proof.
  intros Hlo Hl Hu. destruct x as [p d].
  unfold Qle in Hl, Hu. cbn [Qnum Qden inject_Z] in Hl, Hu.
  unfold toFixed1. cbn [Qnum Qden]. cbv zeta.
  assert (Hq : 0 < Z.pos d) by lia. set (q := Z.pos d) in *.
  destruct (Z.eq_dec p 0) as [->|Hnz].
  { change (Z.sgn 0) with 0. rewrite Z.mul_0_l.
    assert (lo <= 0) by nia. assert (0 <= hi) by nia. lia. }
  assert (Hp : 0 < p) by nia.
  rewrite (Z.abs_eq p) by lia. rewrite (Z.sgn_pos p) by lia.
  pose proof (Z.div_mod (p * 10) q ltac:(lia)) as Hdm.
  pose proof (Z.mod_pos_bound (p * 10) q Hq) as Hr.
  set (m0 := (p * 10 / q)%Z) in *. set (r := (p * 10) mod q) in *.
  assert (10 * lo <= m0) by nia.
  assert (m0 <= 10 * hi) by nia.
  assert (0 < r -> m0 + 1 <= 10 * hi) by nia.
  destruct (Z.ltb_spec (2 * r) q); lia.
Qed.

Lemma parseFloat_toFixed1_bounds (x : Q) (lo hi : Z) :
  0 <= lo -> hi < 2 ^ 53 ->
  (inject_Z lo <= x)%Q -> (x <= inject_Z hi)%Q ->
  (inject_Z lo <= parseFloat_toFixed1 x)%Q /\
  (parseFloat_toFixed1 x <= inject_Z hi)%Q.
Proof.
  intros Hlo Hhi Hl Hu. unfold parseFloat_toFixed1.
  pose proof (toFixed1_bounds x lo hi Hlo Hl Hu) as Ht.
  apply round64_bounds; try assumption; unfold Qle; cbn [Qnum Qden inject_Z]; lia.
Qed.

Lemma ratio_bounds (o t : Z) :
  0 <= o <= t -> 0 < t ->
  (inject_Z 0 <= inject_Z o / inject_Z t)%Q /\
  (inject_Z o / inject_Z t <= inject_Z 1)%Q.
Proof.
  intros Ho Ht.
  assert (Htq : (0 < inject_Z t)%Q) by (unfold Qlt; cbn; lia).
  split.
  - apply Qle_shift_div_l; [exact Htq|].
    rewrite <- inject_Z_mult, <- Zle_Qle. lia.
  - apply Qle_shift_div_r; [exact Htq|].
    rewrite <- inject_Z_mult, <- Zle_Qle. lia.
Qed.

Lemma raw_percentage_bounds (o t : Z) :
  0 <= o <= t ->
  (inject_Z 0
   <= (if 0 <? t then fmul (fdiv (inject_Z o) (inject_Z t)) (inject_Z 100)
       else 0%Q))%Q /\
  ((if 0 <? t then fmul (fdiv (inject_Z o) (inject_Z t)) (inject_Z 100)
    else 0%Q)
   <= inject_Z 100)%Q.
Proof.
  intros Ho. destruct (Z.ltb_spec 0 t) as [Ht|Ht].
  - destruct (ratio_bounds o t Ho Ht) as [R1 R2].
    destruct (round64_bounds _ 0 1 ltac:(lia) ltac:(lia) R1 R2) as [D1 D2].
    fold (fdiv (inject_Z o) (inject_Z t)) in D1, D2.
    unfold fmul. apply round64_bounds; try lia.
    + apply Qmult_le_0_compat; [exact D1|]. unfold Qle. cbn. lia.
    + apply Qle_trans with (inject_Z 1 * inject_Z 100)%Q.
      * apply Qmult_le_compat_r; [exact D2|]. unfold Qle. cbn. lia.
      * unfold Qle. cbn. lia.
  - split; unfold Qle; cbn; lia.
Qed.

Lemma percentage_bounds (o t : Z) :
  0 <= o <= t ->
  (inject_Z 0
   <= parseFloat_toFixed1
        (if 0 <? t then fmul (fdiv (inject_Z o) (inject_Z t)) (inject_Z 100)
         else 0%Q))%Q /\
  (parseFloat_toFixed1
     (if 0 <? t then fmul (fdiv (inject_Z o) (inject_Z t)) (inject_Z 100)
      else 0%Q)
   <= inject_Z 100)%Q.
Proof.
  intros Ho. destruct (raw_percentage_bounds o t Ho) as [H1 H2].
  apply parseFloat_toFixed1_bounds; try lia; assumption.
Qed.

(** Whenever the overhead is not negative, as on every rich document, the
    overhead percentage is between 0 and 100, rounding included. *)
Theorem overheadPercentage_in_range (v : value) (r : OverheadResult) :
  analyzeContentOverhead v = Ok r ->
  0 <= overheadSize r ->
  (0 <= overheadPercentage r)%Q /\ (overheadPercentage r <= 100)%Q.
Proof.
  unfold analyzeContentOverhead.
  assert (Hzero : (0 <= 0)%Q /\ (0 <= 100)%Q) by (split; unfold Qle; cbn; lia).
  destruct v as [| |b|n|s|elems|props]; cbn [truthy negb].
  - intros [= <-] _. exact Hzero.
  - intros [= <-] _. exact Hzero.
  - destruct b; intros [= <-] _; exact Hzero.
  - destruct (negb (n =? 0)); intros [= <-] _; exact Hzero.
  - destruct s as [|u s]; cbn [negb]; intros [= <-] _; exact Hzero.
  - destruct (stringify (Arr elems)) as [json|]; [|discriminate].
    destruct (extractPlainTextFromRichText (Arr elems)) as [text| |];
      cbn [bind]; try discriminate.
    intros [= <-]. cbn [overheadSize overheadPercentage]. intros Ho.
    pose proof (byteLength_nonneg text).
    apply (percentage_bounds (byteLength json - byteLength text)
             (byteLength json)). lia.
  - destruct (stringify (Obj props)) as [json|]; [|discriminate].
    destruct (extractPlainTextFromRichText (Obj props)) as [text| |];
      cbn [bind]; try discriminate.
    intros [= <-]. cbn [overheadSize overheadPercentage]. intros Ho.
    pose proof (byteLength_nonneg text).
    apply (percentage_bounds (byteLength json - byteLength text)
             (byteLength json)). lia.
Qed.

Lemma overheadPercentage_in_range_witness :
  (0 <= overheadPercentage
          {| totalSize := 31; contentSize := 5; overheadSize := 26;
             overheadPercentage := 2951968818253005 # 35184372088832 |})%Q /\
  (overheadPercentage
     {| totalSize := 31; contentSize := 5; overheadSize := 26;
        overheadPercentage := 2951968818253005 # 35184372088832 |} <= 100)%Q.
Proof.
  apply (overheadPercentage_in_range
           (Obj [(js "content", Arr [Obj [(js "value", Str (js "hello"))]])])).
  - vm_compute. reflexivity.
  - cbn. lia.
Defined.

(** ** The character count as text *)

Lemma toFixed1_string_figure (x : Q) (hi : Z) :
  (inject_Z 1 <= x)%Q -> (x <= inject_Z hi)%Q ->
  10 <= toFixed1 x <= 10 * hi /\
  toFixed1_string x
  = number_to_string (toFixed1 x / 10) ++ js "." ++
    number_to_string (toFixed1 x mod 10).
Proof.
  intros Hl Hu.
  pose proof (toFixed1_bounds x 1 hi ltac:(lia) Hl Hu) as Ht.
  split; [lia|]. unfold toFixed1_string. cbv zeta.
  assert (Hnum : 0 < Qnum x).
  { unfold Qle in Hl. cbn [Qnum Qden inject_Z] in Hl. lia. }
  destruct (Z.ltb_spec (Qnum x) 0); [lia|].
  rewrite Z.abs_eq by lia. reflexivity.
Qed.

Lemma scaled_bounds (n unit lo hi : Z) :
  0 < unit -> lo * unit <= n -> n <= hi * unit ->
  (inject_Z lo <= inject_Z n / inject_Z unit)%Q /\
  (inject_Z n / inject_Z unit <= inject_Z hi)%Q.
Proof.
  intros Hunit Hl Hu.
  assert (Hq : (0 < inject_Z unit)%Q) by (unfold Qlt; cbn; lia).
  split.
  - apply Qle_shift_div_l; [exact Hq|].
    rewrite <- inject_Z_mult, <- Zle_Qle. lia.
  - apply Qle_shift_div_r; [exact Hq|].
    rewrite <- inject_Z_mult, <- Zle_Qle. lia.
Qed.

Lemma thousands_roll_over :
  forallb (fun i => jsstring_eqb (formatCharacterCount (999950 + Z.of_nat i))
                      (js "1000.0K chars")) (seq 0 50) = true.
Proof. vm_compute. reflexivity. Qed.

(** [formatCharacterCount]: a count below 1000 is printed in full; from
    1000 to 999,999 the figure before [K] has one decimal and runs from
    1.0 to 1000.0, which it reaches from 999,950 on (the count is not yet
    shown in millions there); from 1,000,000 on the figure before [M] is
    at least 1.0. *)
Theorem formatCharacterCount_figures :
  (forall n, n < 1000 ->
     formatCharacterCount n = number_to_string n ++ js " chars") /\
  (forall n, 1000 <= n < 1000000 ->
     exists t, 10 <= t <= 10000 /\
       formatCharacterCount n
       = number_to_string (t / 10) ++ js "." ++ number_to_string (t mod 10)
         ++ js "K chars") /\
  (forall n, 999950 <= n < 1000000 ->
     formatCharacterCount n = js "1000.0K chars") /\
  (forall n, 1000000 <= n < 2 ^ 53 ->
     exists t, 10 <= t /\
       formatCharacterCount n
       = number_to_string (t / 10) ++ js "." ++ number_to_string (t mod 10)
         ++ js "M chars").
Proof.
  split; [|split; [|split]].
  - intros n Hn. unfold formatCharacterCount.
    destruct (Z.eqb_spec n 0) as [->|_]; [reflexivity|].
    destruct (Z.ltb_spec n 1000); [reflexivity|lia].
  - intros n Hn. unfold formatCharacterCount.
    destruct (Z.eqb_spec n 0); [lia|].
    destruct (Z.ltb_spec n 1000); [lia|].
    destruct (Z.ltb_spec n 1000000); [|lia].
    destruct (scaled_bounds n 1000 1 1000) as [R1 R2]; try lia.
    destruct (round64_bounds _ 1 1000 ltac:(lia) ltac:(lia) R1 R2) as [D1 D2].
    fold (fdiv (inject_Z n) (inject_Z 1000)) in D1, D2.
    destruct (toFixed1_string_figure _ 1000 D1 D2) as [Ht ->].
    exists (toFixed1 (fdiv (inject_Z n) (inject_Z 1000))).
    split; [lia|]. rewrite <- !app_assoc. reflexivity.
  - intros n Hn. pose proof thousands_roll_over as H.
    rewrite forallb_forall in H.
    specialize (H (Z.to_nat (n - 999950))).
    rewrite Z2Nat.id in H by lia.
    replace (999950 + (n - 999950)) with n in H by lia.
    apply jsstring_eqb_eq, H, in_seq. lia.
  - intros n Hn. unfold formatCharacterCount.
    destruct (Z.eqb_spec n 0); [lia|].
    destruct (Z.ltb_spec n 1000); [lia|].
    destruct (Z.ltb_spec n 1000000); [lia|].
    destruct (scaled_bounds n 1000000 1 n) as [R1 R2]; try lia.
    destruct (round64_bounds _ 1 n ltac:(lia) ltac:(lia) R1 R2) as [D1 D2].
    fold (fdiv (inject_Z n) (inject_Z 1000000)) in D1, D2.
    destruct (toFixed1_string_figure _ n D1 D2) as [Ht ->].
    exists (toFixed1 (fdiv (inject_Z n) (inject_Z 1000000))).
    split; [lia|]. rewrite <- !app_assoc. reflexivity.
Qed.

Lemma formatCharacterCount_figures_witness :
  formatCharacterCount 999987 = js "1000.0K chars".
Proof.
  apply (proj1 (proj2 (proj2 formatCharacterCount_figures))). lia.
Defined.
